(** * jazzgpt: the MIDI <-> token-grid codec of [src/midi_processing.py]

    A shallow embedding of the quantizer
    ([extract_tokens_with_granularity]), the synthesizer
    ([generate_midi_from_tokens]), the silence trimmer
    ([trim_and_convert_nones]) and the sentinel decoder
    ([replace_neg1_with_none]), followed by the properties the
    specification states about them.

    Python integers are [Z]; [None]-or-integer tokens are [option Z];
    the [active_notes] dictionary is a [gmap Z Z]; Python exceptions are
    the left summand of [result]. *)

From Stdlib Require Import ZArith List Lia.
From stdpp Require Import base option list sorting strings gmap fin_maps.

Local Open Scope Z_scope.

(** ** Python runtime pieces used by the module *)

Module Py.

(** The two built-in exceptions the arithmetic of the module can raise. *)
Inductive error : Set :=
| ZeroDivisionError
| ValueError.

Definition result (A : Type) : Type := (error + A)%type.

Definition ret {A} (a : A) : result A := inr a.
Definition raise {A} (e : error) : result A := inl e.

Definition bind {A B} (r : result A) (k : A -> result B) : result B :=
  match r with
  | inl e => inl e
  | inr a => k a
  end.

(** [a // b]: floor division, the remainder takes the sign of [b]
    (which is what [Z.div] computes), and a zero divisor raises. *)
Definition floordiv (a b : Z) : result Z :=
  if b =? 0 then raise ZeroDivisionError else ret (a / b).

(** Number of elements of [range(lo, hi, step)] for [step <> 0]. *)
Definition range_length (lo hi step : Z) : Z :=
  if 0 <? step then
    (if lo <? hi then 1 + (hi - 1 - lo) / step else 0)
  else
    (if hi <? lo then 1 + (lo - 1 - hi) / (- step) else 0).

(** [range(lo, hi, step)]; a zero step raises [ValueError]. *)
Definition range (lo hi step : Z) : result (list Z) :=
  if step =? 0 then raise ValueError
  else ret (map (fun k : nat => lo + Z.of_nat k * step)
                (seq 0 (Z.to_nat (range_length lo hi step)))).

(** [l[a:b]] with Python's treatment of negative and out-of-range
    bounds. *)
Definition slice_bound (len x : Z) : Z :=
  if x <? 0 then Z.max (x + len) 0 else Z.min x len.

Definition slice {A} (l : list A) (a b : Z) : list A :=
  let len := Z.of_nat (length l) in
  let a' := slice_bound len a in
  let b' := slice_bound len b in
  take (Z.to_nat (b' - a')) (drop (Z.to_nat a') l).

(** [max(xs)] on a non-empty sequence, scanning left to right. *)
Definition max (xs : list Z) : result Z :=
  match xs with
  | [] => raise ValueError
  | x :: xs' => ret (fold_left Z.max xs' x)
  end.

End Py.

Notation "'let*' x ':=' r 'in' k" := (Py.bind r (fun x => k))
  (at level 10, x name, r at level 100, k at level 200).

(** ** Data model *)

(** A token is a pitch or [None] (a rest). *)
Abbreviation token := (option Z) (only parsing).

(** The message kinds the module distinguishes; every other [mido]
    message type is [other] and is skipped by the quantizer. *)
Inductive msg_type : Set :=
| note_on
| note_off
| other.

Global Instance msg_type_eq_dec : EqDecision msg_type.
Proof. solve_decision. Defined.

(** A [mido.Message], with the four attributes the module reads or
    writes; [time] is the delta time in ticks.  The record is the
    message once built: the range check that [mido] makes when the
    module builds one is [new_message] below. *)
Record Message : Set := mkMessage {
  type : msg_type;
  note : Z;
  velocity : Z;
  time : Z
}.

Global Instance Message_eq_dec : EqDecision Message.
Proof. solve_decision. Defined.

(** ** [generate_midi_from_tokens] *)

(** The loop state of the synthesizer: the track built so far and the
    two local variables. *)
Record synth_state : Set := mkSynth {
  track : list Message;
  current_time : Z;
  previous_token : token
}.

(** The [events] list of one transition: a note_off for the previous
    pitch, then a note_on for the new one. *)
Definition transition_events (previous_token tok : token) : list (msg_type * Z) :=
  (match previous_token with Some p => [(note_off, p)] | None => [] end) ++
  (match tok with Some n => [(note_on, n)] | None => [] end).

(** A data byte of a MIDI message: an integer from 0 to 127. *)
Definition data_byte (v : Z) : bool := (0 <=? v) && (v <=? 127).

(** [Message(type, note=..., velocity=..., time=...)]: [mido] raises
    [ValueError] when [note] or [velocity] is not a data byte. *)
Definition new_message (ty : msg_type) (note velocity time : Z) : Py.result Message :=
  if data_byte note && data_byte velocity
  then Py.ret (mkMessage ty note velocity time)
  else Py.raise Py.ValueError.

(** The message built for one entry of [events]. *)
Definition event_message (delta_time : Z) (idx : nat) (ev : msg_type * Z)
  : Py.result Message :=
  let msg_time := if Nat.eqb idx 0 then delta_time else 0 in
  match fst ev with
  | note_off => new_message note_off (snd ev) 0 msg_time
  | _ => new_message note_on (snd ev) 64 msg_time
  end.

(** The inner [for idx, (event_type, note) in enumerate(events)]. *)
Fixpoint append_events (delta_time : Z) (idx : nat) (events : list (msg_type * Z))
    (track : list Message) : Py.result (list Message) :=
  match events with
  | [] => Py.ret track
  | ev :: rest =>
      let* msg := event_message delta_time idx ev in
      append_events delta_time (S idx) rest (track ++ [msg])
  end.

(** One iteration of [for i, token in enumerate(tokens)]. *)
Definition synth_step (step_size : Z) (st : synth_state) (i : Z) (tok : token)
  : Py.result synth_state :=
  let step_time := i * step_size in
  if decide (tok = previous_token st) then Py.ret st
  else
    let delta_time := step_time - current_time st in
    let events := transition_events (previous_token st) tok in
    let* track := append_events delta_time 0 events (track st) in
    Py.ret (mkSynth track step_time tok).

Fixpoint synth_loop (step_size : Z) (i : Z) (tokens : list token) (st : synth_state)
  : Py.result synth_state :=
  match tokens with
  | [] => Py.ret st
  | tok :: rest =>
      let* st' := synth_step step_size st i tok in
      synth_loop step_size (i + 1) rest st'
  end.

(** The final [note_off] that closes a pitch still sounding after the
    loop. *)
Definition synth_flush (step_size : Z) (n : Z) (st : synth_state)
  : Py.result (list Message) :=
  match previous_token st with
  | Some p =>
      let* msg := new_message note_off p 0 (n * step_size - current_time st) in
      Py.ret (track st ++ [msg])
  | None => Py.ret (track st)
  end.

(** [mid.save(...)], as far as the messages go: writing a message whose
    delta time is negative raises [ValueError].  The file system and the
    header of the file are not modelled. *)
Definition midi_save (track : list Message) : Py.result unit :=
  if forallb (fun msg => 0 <=? time msg) track then Py.ret tt
  else Py.raise Py.ValueError.

(** The track of the returned [MidiFile]. *)
Definition generate_midi_from_tokens (tokens : list token) (ticks_per_beat subdivision : Z)
  : Py.result (list Message) :=
  let* step_size := Py.floordiv ticks_per_beat subdivision in
  let* st := synth_loop step_size 0 tokens (mkSynth [] 0 None) in
  let* track := synth_flush step_size (Z.of_nat (length tokens)) st in
  let* saved := midi_save track in
  Py.ret track.

(** ** [extract_tokens_with_granularity] *)

(** The [events] list: every message paired with its absolute time. *)
Fixpoint timeline_from (current_time : Z) (msgs : list Message) : list (Z * Message) :=
  match msgs with
  | [] => []
  | msg :: rest =>
      let t := current_time + time msg in
      (t, msg) :: timeline_from t rest
  end.

Definition timeline (msgs : list Message) : list (Z * Message) :=
  timeline_from 0 msgs.

(** [events[-1][0] if events else 0] *)
Definition final_time_of (events : list (Z * Message)) : Z :=
  match last events with
  | Some ev => fst ev
  | None => 0
  end.

(** The body of the [while]: the effect of one event on [active_notes]. *)
Definition apply_event (active_notes : gmap Z Z) (ev : Z * Message) : gmap Z Z :=
  let '(event_time, msg) := ev in
  match type msg with
  | note_on =>
      if 0 <? velocity msg then <[note msg := event_time]> active_notes
      else delete (note msg) active_notes
  | note_off => delete (note msg) active_notes
  | other => active_notes
  end.

(** The [while event_index < len(events) and events[event_index][0] <= t]
    loop; the cursor [event_index] is the list of events not yet
    consumed. *)
Fixpoint drain (t : Z) (events : list (Z * Message)) (active_notes : gmap Z Z)
  : list (Z * Message) * gmap Z Z :=
  match events with
  | [] => ([], active_notes)
  | ev :: rest =>
      if fst ev <=? t then drain t rest (apply_event active_notes ev)
      else (events, active_notes)
  end.

(** The token chosen once the events of a step are applied.  The keys of
    a [gmap] are enumerated in another order than those of a [dict];
    [max] does not depend on it. *)
Definition current_token (active_notes : gmap Z Z) : Py.result token :=
  if decide (active_notes = ∅) then Py.ret None
  else let* k := Py.max (map fst (map_to_list active_notes)) in Py.ret (Some k).

(** The [for t in range(...)] loop. *)
Fixpoint sample_loop (ts : list Z) (events : list (Z * Message))
    (active_notes : gmap Z Z) : Py.result (list token) :=
  match ts with
  | [] => Py.ret []
  | t :: ts' =>
      let '(events', active') := drain t events active_notes in
      let* tok := current_token active' in
      let* toks := sample_loop ts' events' active' in
      Py.ret (tok :: toks)
  end.

Definition extract_tokens_with_granularity (track : list Message)
    (ticks_per_beat subdivision : Z) : Py.result (list token) :=
  let* step_size := Py.floordiv ticks_per_beat subdivision in
  let events := timeline track in
  let final_time := final_time_of events in
  let* ts := Py.range 0 (final_time + step_size) step_size in
  sample_loop ts events ∅.

(** ** [trim_and_convert_nones] and [replace_neg1_with_none] *)

(** [while first < len(tokens) and tokens[first] is None: first += 1],
    run on the tokens from index [first] on. *)
Fixpoint scan_first (rest : list token) (first : Z) : Z :=
  match rest with
  | None :: rest' => scan_first rest' (first + 1)
  | _ => first
  end.

(** [while last >= 0 and tokens[last] is None: last -= 1], run on the
    tokens up to index [last], nearest first. *)
Fixpoint scan_last (rev_rest : list token) (last : Z) : Z :=
  match rev_rest with
  | None :: rest' => scan_last rest' (last - 1)
  | _ => last
  end.

(** [x if x is not None else -1] *)
Definition none_to_neg1 (x : token) : Z :=
  match x with
  | Some v => v
  | None => -1
  end.

(** [None if x == -1 else x] *)
Definition neg1_to_none (x : Z) : token :=
  if x =? -1 then None else Some x.

Definition trim_and_convert_nones (tokens : list token) (subdivision : Z)
  : Py.result (list Z) :=
  match tokens with
  | [] => Py.ret []
  | _ =>
      let len := Z.of_nat (length tokens) in
      let first := scan_first tokens 0 in
      let last := scan_last (reverse tokens) (len - 1) in
      if last <? first then Py.ret []
      else
        let* q1 := Py.floordiv first subdivision in
        let leading_remove := q1 * subdivision in
        let* q2 := Py.floordiv (len - last - 1) subdivision in
        let trailing_remove := q2 * subdivision in
        let new_first := leading_remove in
        let new_last := len - trailing_remove - 1 in
        let trimmed := Py.slice tokens new_first (new_last + 1) in
        Py.ret (map none_to_neg1 trimmed)
  end.

Definition replace_neg1_with_none (lst : list Z) : list token :=
  map neg1_to_none lst.

(** ** [extract_notes_from_track] *)

(** The [for msg in track] loop, with its three local variables: the
    notes found so far, the running time, and the note that is waiting
    for the next onset. *)
Fixpoint notes_loop (msgs : list Message) (notes : list (Z * Z))
    (current_time : Z) (current_note : option (Z * Z)) : list (Z * Z) :=
  match msgs with
  | [] => notes
  | msg :: rest =>
      let current_time := current_time + time msg in
      match type msg with
      | note_on =>
          if 0 <? velocity msg then
            let notes :=
              match current_note with
              | Some (pitch, start) => notes ++ [(pitch, current_time - start)]
              | None => notes
              end in
            notes_loop rest notes current_time (Some (note msg, current_time))
          else notes_loop rest notes current_time current_note
      | _ => notes_loop rest notes current_time current_note
      end
  end.

Definition extract_notes_from_track (msgs : list Message) : list (Z * Z) :=
  notes_loop msgs [] 0 None.

(** ** [convert_to_buckets] *)

(** [range(n)] *)
Definition range_upto (n : Z) : list Z :=
  map Z.of_nat (seq 0 (Z.to_nat n)).

(** The comprehension
    [(first, i+1) for first, second in notes for i in range(num_buckets)
     if (i*interval) < second <= ((i+1)*interval)]. *)
Definition convert_to_buckets (all_guitar_notes : list (Z * Z))
    (interval num_buckets : Z) : list (Z * Z) :=
  flat_map
    (fun '(first, second) =>
       flat_map
         (fun i =>
            if (i * interval <? second) && (second <=? (i + 1) * interval)
            then [(first, i + 1)] else [])
         (range_upto num_buckets))
    all_guitar_notes.

(** ** [find_guitar_track], [find_key] and [process_midi_file] *)

(** A [mido.MidiTrack]: its name and its messages. *)
Record MidiTrack : Set := mkTrack {
  name : string;
  messages : list Message
}.

(** A parsed [mido.MidiFile].  Reading the file from its path is not
    modelled: the functions below start from the parsed file. *)
Record MidiFile : Set := mkMidiFile {
  tracks : list MidiTrack;
  midi_ticks_per_beat : Z
}.

(** [process_midi_file] can fail with the exceptions of the quantizer,
    with the [re.error] of an invalid pattern, or because it reads its
    local variable [key] before any assignment. *)
Inductive process_error : Set :=
| UnboundLocalError
| ReError
| Raised (e : Py.error).

Section TrackSelection.

(** [re.compile(track_name, re.IGNORECASE)]: [None] when the pattern is
    not a valid regular expression, so that [re.compile] raises
    [re.error], and otherwise the truth value of
    [re.search(pattern, name)] for every name; the regular expression
    engine itself is not modelled. *)
Variable re_compile : string -> option (string -> bool).

(** [message.key] of a message whose type is ['key_signature'], and
    [None] for every other message. *)
Variable key_signature : Message -> option string.

Definition find_guitar_track (midi_file : MidiFile) (track_name : string)
  : process_error + list MidiTrack :=
  match re_compile track_name with
  | None => inl ReError
  | Some pattern =>
      inr (filter (fun t => pattern (name t) = true) (tracks midi_file))
  end.

(** The two nested loops of [find_key]; printing is not modelled. *)
Definition find_key (midi_file : MidiFile) : string :=
  foldl
    (fun current_key t =>
       foldl
         (fun current_key message =>
            match key_signature message with
            | Some key => key
            | None => current_key
            end)
         current_key (messages t))
    "unknown"%string (tracks midi_file).

(** [for guitar_track in guitar_tracks: all_guitar_notes.extend(...)] *)
Fixpoint extend_with_tokens (guitar_tracks : list MidiTrack)
    (ticks_per_beat subdivision : Z) (all_guitar_notes : list token)
  : Py.result (list token) :=
  match guitar_tracks with
  | [] => Py.ret all_guitar_notes
  | guitar_track :: rest =>
      let* guitar_notes :=
        extract_tokens_with_granularity (messages guitar_track)
          ticks_per_beat subdivision in
      extend_with_tokens rest ticks_per_beat subdivision
        (all_guitar_notes ++ guitar_notes)
  end.

Definition process_midi_file (midi_file : MidiFile) (track_name : string)
    (subdivision : Z) : process_error + (list token * string * Z) :=
  match find_guitar_track midi_file track_name with
  | inl e => inl e
  | inr guitar_tracks =>
      match guitar_tracks with
      | [] => inl UnboundLocalError
      | _ =>
          let key := find_key midi_file in
          match extend_with_tokens guitar_tracks (midi_ticks_per_beat midi_file)
                  subdivision [] with
          | inl e => inl (Raised e)
          | inr all_guitar_notes =>
              inr (all_guitar_notes, key, midi_ticks_per_beat midi_file)
          end
      end
  end.

End TrackSelection.

(** ** Definitions used to state the properties *)

(** A token the synthesizer can write: a rest, or a pitch that is a
    data byte. *)
Definition token_ok (tok : token) : bool :=
  match tok with
  | Some p => data_byte p
  | None => true
  end.

Definition pitch_in_range (tok : token) : Prop :=
  forall p, tok = Some p -> 0 <= p <= 127.

(** The message that [event_message] returns when it does not fail. *)
Definition written_message (delta_time : Z) (idx : nat) (ev : msg_type * Z) : Message :=
  let msg_time := if Nat.eqb idx 0 then delta_time else 0 in
  match fst ev with
  | note_off => mkMessage note_off (snd ev) 0 msg_time
  | _ => mkMessage note_on (snd ev) 64 msg_time
  end.

(** The messages still to be appended from index [i] on, when the track
    so far ends at [cur] ticks, the sounding token is [prev] and no
    message fails to be built. *)
Fixpoint synth_msgs (step_size i cur : Z) (prev : token) (tokens : list token)
  : list Message :=
  match tokens with
  | [] =>
      match prev with
      | Some p => [mkMessage note_off p 0 (i * step_size - cur)]
      | None => []
      end
  | tok :: rest =>
      if decide (tok = prev) then synth_msgs step_size (i + 1) cur prev rest
      else imap (written_message (i * step_size - cur)) (transition_events prev tok)
             ++ synth_msgs step_size (i + 1) (i * step_size) tok rest
  end.

(** Total duration of a track: the sum of its delta times. *)
Definition track_length (msgs : list Message) : Z :=
  foldr (fun msg acc => time msg + acc) 0 msgs.

(** A token grid without its trailing rests. *)
Fixpoint strip_trailing_rests (tokens : list token) : list token :=
  match tokens with
  | [] => []
  | tok :: rest =>
      match tok, strip_trailing_rests rest with
      | None, [] => []
      | _, kept => tok :: kept
      end
  end.

(** A track made of note_on / note_off pairs on the same pitch, the
    note_off right after its note_on. *)
Inductive paired : list Message -> Prop :=
| paired_nil : paired []
| paired_cons (m_on m_off : Message) (rest : list Message) :
    type m_on = note_on -> type m_off = note_off -> note m_off = note m_on ->
    paired rest -> paired (m_on :: m_off :: rest).

(** Events in temporal order. *)
Definition by_time (e1 e2 : Z * Message) : Prop := fst e1 <= fst e2.

(** The active-note dictionary once every event at or before tick [t]
    has been applied, in order, to the empty dictionary. *)
Definition active_at (events : list (Z * Message)) (t : Z) : gmap Z Z :=
  foldl apply_event ∅ (filter (fun ev => fst ev <= t) events).

(** An event that switches a pitch off. *)
Definition closes (msg : Message) : Prop :=
  type msg = note_off \/ (type msg = note_on /\ velocity msg <= 0).

(** The dictionary that goes with a sounding token. *)
Definition active_matches (prev : token) (A : gmap Z Z) : Prop :=
  match prev with
  | None => A = ∅
  | Some p => exists s, A = {[p := s]}
  end.

(** The tokens sampled from index [i] on, on the messages
    [synth_msgs _ i _ prev tokens]: sampling stops one step after the
    last message. *)
Fixpoint resampled (prev : token) (tokens : list token) : list token :=
  match tokens with
  | [] => match prev with Some _ => [None] | None => [] end
  | tok :: rest =>
      if decide (tok = prev) then
        match resampled prev rest with
        | [] => []
        | later => prev :: later
        end
      else tok :: resampled tok rest
  end.

(** What a message does to the active notes. *)
Inductive note_effect : Set :=
| Starts (pitch : Z)
| Stops (pitch : Z)
| NoEffect.

Definition effect_of (msg : Message) : note_effect :=
  match type msg with
  | note_on => if 0 <? velocity msg then Starts (note msg) else Stops (note msg)
  | note_off => Stops (note msg)
  | other => NoEffect
  end.

(** The number of places where a grid, read after the token [prev],
    changes to a pitch. *)
Fixpoint note_starts (prev : token) (tokens : list token) : nat :=
  match tokens with
  | [] => 0
  | tok :: rest =>
      ((if decide (tok = prev) then 0 else if tok is Some _ then 1 else 0)
       + note_starts tok rest)%nat
  end.

(** The onsets of a track: pitch and absolute time of every note_on
    with a positive velocity. *)
Definition onsets (events : list (Z * Message)) : list (Z * Z) :=
  omap (fun ev : Z * Message =>
          match effect_of (snd ev) with
          | Starts p => Some (p, fst ev)
          | _ => None
          end) events.

(** Each onset but the last, with the time to the next onset. *)
Fixpoint inter_onset (os : list (Z * Z)) : list (Z * Z) :=
  match os with
  | (p, t) :: (((_, t') :: _) as rest) => (p, t' - t) :: inter_onset rest
  | _ => []
  end.

(** Two events at the same time that do the same to the active notes. *)
Definition same_event (ev1 ev2 : Z * Message) : Prop :=
  fst ev1 = fst ev2 /\ effect_of (snd ev1) = effect_of (snd ev2).

(** The bucket of one note: the duration divided by the interval and
    rounded up, when it is positive and within the last bucket. *)
Definition bucket_of (interval num_buckets : Z) (n : Z * Z) : list (Z * Z) :=
  if (0 <? snd n) && (snd n <=? num_buckets * interval)
  then [(fst n, (snd n + interval - 1) / interval)] else [].

(** A pattern compiler for the examples: ["("] is not a regular
    expression, and every other pattern finds the track named "Solo". *)
Definition solo_only (track_name : string) : option (string -> bool) :=
  if String.eqb track_name "(" then None
  else Some (fun track => String.eqb track "Solo").

(** * Properties *)

(** The division that computes the step size goes through when the
    subdivision is known not to be zero. *)
Ltac floordiv_defined :=
  unfold Py.floordiv;
  match goal with
  | |- context [?b =? 0] =>
      destruct (Z.eqb_spec b 0) as [|_]; [first [done | lia] |]
  end;
  cbn [Py.bind Py.ret].

(** ** The synthesizer, message by message *)

Lemma data_byte_spec (v : Z) : data_byte v = true <-> 0 <= v <= 127.
Proof.
  unfold data_byte. rewrite andb_true_iff, Z.leb_le, Z.leb_le. done.
Qed.

Lemma token_ok_spec (tok : token) : token_ok tok = true <-> pitch_in_range tok.
Proof.
  unfold pitch_in_range. destruct tok as [p|]; simpl.
  - rewrite data_byte_spec. split; [by intros ? ? [= <-] | eauto].
  - split; [by intros _ ? [=] | done].
Qed.

Lemma forallb_token_ok (tokens : list token) :
  forallb token_ok tokens = true <-> Forall pitch_in_range tokens.
Proof.
  rewrite forallb_forall, Forall_forall. split.
  - intros H tok Hin. apply token_ok_spec, H. by apply list_elem_of_In.
  - intros H tok Hin. apply token_ok_spec, H. by apply list_elem_of_In.
Qed.

(** The inner loop on the events of one transition: it fails exactly
    when the pitch that stops or the pitch that starts is out of range. *)
Lemma append_transition (delta : Z) (prev tok : token) (msgs : list Message) :
  append_events delta 0 (transition_events prev tok) msgs
  = if token_ok prev && token_ok tok
    then inr (msgs ++ imap (written_message delta) (transition_events prev tok))
    else inl Py.ValueError.
Proof.
  destruct prev as [p|], tok as [n|];
    cbn [transition_events app append_events event_message fst snd token_ok];
    unfold new_message; cbn [Nat.eqb].
  - destruct (data_byte p); [| done]. change (data_byte 0) with true.
    cbn [andb Py.bind Py.ret]. destruct (data_byte n); [| done].
    change (data_byte 64) with true. cbn [andb Py.bind Py.ret].
    by rewrite <- app_assoc.
  - destruct (data_byte p); [| done]. done.
  - destruct (data_byte n); [| done]. done.
  - by rewrite app_nil_r.
Qed.

(** The loop and the flush together: they fail exactly when a pitch is
    out of range, and otherwise append [synth_msgs]. *)
Lemma synth_loop_flush step_size tokens : forall i st,
  (let* st' := synth_loop step_size i tokens st in
   synth_flush step_size (i + Z.of_nat (length tokens)) st')
  = if token_ok (previous_token st) && forallb token_ok tokens
    then inr (track st ++ synth_msgs step_size i (current_time st) (previous_token st)
                tokens)
    else inl Py.ValueError.
Proof.
  induction tokens as [|tok rest IH]; intros i st.
  - cbn [synth_loop synth_msgs length forallb Py.bind Py.ret]. unfold synth_flush.
    rewrite Z.add_0_r, andb_true_r.
    destruct (previous_token st) as [p|]; cbn [token_ok]; [| by rewrite app_nil_r].
    unfold new_message. destruct (data_byte p); done.
  - cbn [synth_loop synth_msgs length forallb]. rewrite Nat2Z.inj_succ.
    replace (i + Z.succ (Z.of_nat (length rest)))
      with (i + 1 + Z.of_nat (length rest)) by lia.
    unfold synth_step. destruct (decide (tok = previous_token st)) as [->|Hne].
    + cbn [Py.bind Py.ret]. rewrite IH.
      by destruct (token_ok (previous_token st)).
    + rewrite append_transition.
      destruct (token_ok (previous_token st)); [| done].
      destruct (token_ok tok) eqn:Htok; [| done].
      cbn [andb Py.bind Py.ret]. rewrite IH.
      cbn [track current_time previous_token]. rewrite Htok.
      cbn [andb]. destruct (forallb token_ok rest); [| done].
      by rewrite <- app_assoc.
Qed.

(** The synthesizer as a whole: a zero subdivision, a pitch out of range
    and a negative delta time are its failures. *)
Lemma generate_spec tokens ticks_per_beat subdivision :
  generate_midi_from_tokens tokens ticks_per_beat subdivision
  = if subdivision =? 0 then inl Py.ZeroDivisionError
    else if forallb token_ok tokens
         && forallb (fun msg => 0 <=? time msg)
              (synth_msgs (ticks_per_beat / subdivision) 0 0 None tokens)
    then inr (synth_msgs (ticks_per_beat / subdivision) 0 0 None tokens)
    else inl Py.ValueError.
Proof.
  unfold generate_midi_from_tokens, Py.floordiv.
  destruct (subdivision =? 0); [done |]. cbn [Py.bind Py.ret].
  pose proof (synth_loop_flush (ticks_per_beat / subdivision) tokens 0
                (mkSynth [] 0 None)) as Hrun.
  cbn [track current_time previous_token token_ok andb app] in Hrun.
  rewrite Z.add_0_l in Hrun.
  destruct (synth_loop _ 0 tokens _) as [e|st]; cbn [Py.bind] in *.
  - by destruct (forallb token_ok tokens).
  - rewrite Hrun. destruct (forallb token_ok tokens); [| done].
    cbn [andb Py.bind]. unfold midi_save.
    by destruct (forallb _ (synth_msgs _ 0 0 None tokens)).
Qed.

Lemma synth_msgs_nonneg (step_size : Z) (tokens : list token) :
  0 <= step_size ->
  forall (i cur : Z) (prev : token),
    cur <= i * step_size ->
    Forall (fun msg => 0 <= time msg) (synth_msgs step_size i cur prev tokens).
Proof.
  intros Hstep. induction tokens as [|tok rest IH]; intros i cur prev Hcur.
  - destruct prev as [p|]; simpl; repeat constructor. simpl. lia.
  - cbn [synth_msgs]. destruct (decide (tok = prev)) as [->|Hne].
    + apply IH. lia.
    + apply Forall_app. split; [| apply IH; lia].
      destruct prev as [p|], tok as [n|]; simpl; repeat constructor; simpl; lia.
Qed.

Lemma generate_unfold tokens ticks_per_beat subdivision :
  subdivision <> 0 -> 0 <= ticks_per_beat / subdivision ->
  Forall pitch_in_range tokens ->
  generate_midi_from_tokens tokens ticks_per_beat subdivision
  = inr (synth_msgs (ticks_per_beat / subdivision) 0 0 None tokens).
Proof.
  intros Hs Hstep Hok. rewrite generate_spec.
  destruct (Z.eqb_spec subdivision 0) as [|_]; [done |].
  apply forallb_token_ok in Hok. rewrite Hok. cbn [andb].
  assert (Htimes : forallb (fun msg => 0 <=? time msg)
                     (synth_msgs (ticks_per_beat / subdivision) 0 0 None tokens) = true).
  { apply forallb_forall. intros msg Hin. apply Z.leb_le.
    pose proof (synth_msgs_nonneg (ticks_per_beat / subdivision) tokens Hstep 0 0 None
                  ltac:(lia)) as Hall.
    rewrite Forall_forall in Hall. by apply Hall, list_elem_of_In. }
  by rewrite Htimes.
Qed.

(** What a returned track is. *)
Lemma generate_returns tokens ticks_per_beat subdivision msgs :
  generate_midi_from_tokens tokens ticks_per_beat subdivision = inr msgs ->
  subdivision <> 0 /\
  Forall pitch_in_range tokens /\
  msgs = synth_msgs (ticks_per_beat / subdivision) 0 0 None tokens /\
  Forall (fun msg => 0 <= time msg) msgs.
Proof.
  rewrite generate_spec. destruct (Z.eqb_spec subdivision 0) as [|Hs]; [done |].
  destruct (forallb token_ok tokens) eqn:Hok; [| done]. cbn [andb].
  destruct (forallb _ (synth_msgs _ 0 0 None tokens)) eqn:Htimes; [| done].
  intros [= <-]. split; [done |]. split; [by apply forallb_token_ok |].
  split; [done |]. apply Forall_forall. intros msg Hin. apply Z.leb_le.
  rewrite forallb_forall in Htimes. by apply Htimes, list_elem_of_In.
Qed.

(** ** The quantizer never fails once the range is built *)

Lemma pymax_spec (x : Z) (xs : list Z) :
  In (fold_left Z.max xs x) (x :: xs) /\
  forall y, In y (x :: xs) -> y <= fold_left Z.max xs x.
Proof.
  revert x. induction xs as [|z xs IH]; intros x; simpl.
  - split; [by left | intros y [->|[]]; lia].
  - destruct (IH (Z.max x z)) as [Hin Hle]. split.
    + destruct Hin as [Heq | Hin]; [| by right; right].
      rewrite <- Heq. destruct (Z.max_spec x z) as [[_ ->]|[_ ->]]; auto.
    + intros y Hy. pose proof (Hle _ (or_introl eq_refl)) as Hm.
      destruct Hy as [->|[->|Hy]]; [lia | lia |].
      apply Hle. by right.
Qed.

(** What [current_token] returns: a rest on the empty dictionary, and
    otherwise the largest key. *)
Lemma current_token_spec (A : gmap Z Z) :
  (A = ∅ /\ current_token A = inr None) \/
  (A <> ∅ /\ exists p, current_token A = inr (Some p) /\ is_Some (A !! p) /\
             forall q, is_Some (A !! q) -> q <= p).
Proof.
  unfold current_token. destruct (decide (A = ∅)) as [->|Hne]; [by left |].
  right. split; [done |].
  destruct (map_to_list A) as [|[k v] kvs] eqn:Hl.
  { by apply map_to_list_empty_iff in Hl. }
  simpl. destruct (pymax_spec k (map fst kvs)) as [Hin Hmax].
  exists (fold_left Z.max (map fst kvs) k). split; [done |].
  assert (Hkeys : forall q, In q (k :: map fst kvs) <-> is_Some (A !! q)).
  { intros q. change (k :: map fst kvs) with (map fst ((k, v) :: kvs)).
    rewrite <- Hl, in_map_iff. split.
    - intros [[q' w] [<- Hq]]. apply list_elem_of_In, elem_of_map_to_list in Hq. eauto.
    - intros [w Hw]. exists (q, w). split; [done |].
      by apply list_elem_of_In, elem_of_map_to_list. }
  split; [by apply Hkeys | intros q Hq; by apply Hmax, Hkeys].
Qed.

Lemma current_token_total (A : gmap Z Z) : exists tok, current_token A = inr tok.
Proof.
  destruct (current_token_spec A) as [[_ H]|[_ (p & H & _)]]; eauto.
Qed.

Lemma sample_loop_total ts : forall events A,
  exists toks, sample_loop ts events A = inr toks /\ length toks = length ts.
Proof.
  induction ts as [|t ts IH]; intros events A; simpl; [by exists [] |].
  destruct (drain t events A) as [events' A'].
  destruct (current_token_total A') as [tok ->].
  destruct (IH events' A') as (toks & -> & Hlen). simpl.
  exists (tok :: toks). split; [done | simpl; by rewrite Hlen].
Qed.

(** ** Resolution errors and empty inputs *)

Lemma range_singleton (step : Z) :
  step <> 0 -> Py.range 0 (0 + step) step = inr [0].
Proof.
  intros Hs. unfold Py.range, Py.range_length.
  destruct (Z.eqb_spec step 0) as [|_]; [done |].
  assert (Hone : (if 0 <? step
                  then if 0 <? 0 + step then 1 + (0 + step - 1 - 0) / step else 0
                  else if 0 + step <? 0 then 1 + (0 - 1 - (0 + step)) / - step else 0)
                 = 1).
  { destruct (Z.ltb_spec 0 step) as [Hpos|Hneg].
    - destruct (Z.ltb_spec 0 (0 + step)); [| lia].
      rewrite Z.div_small; lia.
    - destruct (Z.ltb_spec (0 + step) 0); [| lia].
      rewrite Z.div_small; lia. }
  rewrite Hone. reflexivity.
Qed.

Lemma extract_empty_track ticks_per_beat subdivision :
  subdivision <> 0 -> ticks_per_beat / subdivision <> 0 ->
  extract_tokens_with_granularity [] ticks_per_beat subdivision = inr [None].
Proof.
  intros Hs Hstep. unfold extract_tokens_with_granularity. floordiv_defined.
  cbn [timeline timeline_from final_time_of last].
  rewrite range_singleton by done. reflexivity.
Qed.

Lemma extract_total track ticks_per_beat subdivision :
  subdivision <> 0 -> ticks_per_beat / subdivision <> 0 ->
  exists toks, extract_tokens_with_granularity track ticks_per_beat subdivision = inr toks.
Proof.
  intros Hs Hstep. unfold extract_tokens_with_granularity, Py.floordiv, Py.range.
  destruct (Z.eqb_spec subdivision 0) as [|_]; [done |].
  cbn [Py.bind Py.ret].
  destruct (Z.eqb_spec (ticks_per_beat / subdivision) 0) as [|_]; [done |].
  cbn [Py.bind Py.ret].
  match goal with |- context [sample_loop ?ts ?ev ?A] =>
    destruct (sample_loop_total ts ev A) as (toks & -> & _) end.
  by exists toks.
Qed.

(** C5, as the specification words it, fails: the quantizer samples step
    0 even when the track has no message, so the grid of an empty track
    holds one rest. *)
Lemma empty_track_grid_is_not_empty :
  extract_tokens_with_granularity [] 480 6 = inr [None] /\
  extract_tokens_with_granularity [] 480 6 <> inr [].
Proof. split; [reflexivity | discriminate]. Qed.

(** C5 (amended): whenever the resolution is usable, an empty track
    quantizes without error to the one-token grid holding a rest, and an
    empty token grid synthesizes without error to the empty track. *)
Theorem empty_inputs_are_defined (ticks_per_beat subdivision : Z) :
  subdivision <> 0 ->
  (ticks_per_beat / subdivision <> 0 ->
   extract_tokens_with_granularity [] ticks_per_beat subdivision = inr [None]) /\
  generate_midi_from_tokens [] ticks_per_beat subdivision = inr [].
Proof.
  intros Hs. split.
  - intros Hstep. by apply extract_empty_track.
  - rewrite generate_spec. by destruct (Z.eqb_spec subdivision 0).
Qed.

Lemma empty_inputs_are_defined_witness :
  extract_tokens_with_granularity [] 480 6 = inr [None] /\
  generate_midi_from_tokens [] 480 6 = inr [].
Proof.
  destruct (empty_inputs_are_defined 480 6) as [Hq Hs]; [lia |].
  split; [apply Hq; vm_compute; discriminate | exact Hs].
Defined.

(** ** The trimmer *)

Lemma scan_first_replicate (a : nat) (l : list token) (z : Z) :
  scan_first (replicate a None ++ l) z = scan_first l (z + Z.of_nat a).
Proof.
  revert z. induction a as [|a IH]; intros z.
  - simpl. f_equal. lia.
  - cbn [replicate app scan_first]. rewrite IH. f_equal. lia.
Qed.

Lemma scan_last_replicate (b : nat) (l : list token) (z : Z) :
  scan_last (replicate b None ++ l) z = scan_last l (z - Z.of_nat b).
Proof.
  revert z. induction b as [|b IH]; intros z.
  - simpl. f_equal. lia.
  - cbn [replicate app scan_last]. rewrite IH. f_equal. lia.
Qed.

Lemma scan_first_pitch (l : list token) (p z : Z) :
  head l = Some (Some p) -> scan_first l z = z.
Proof. destruct l as [|[q|] l]; simpl; congruence. Qed.

Lemma scan_last_pitch (l : list token) (q z : Z) :
  head l = Some (Some q) -> scan_last l z = z.
Proof. destruct l as [|[p|] l]; simpl; congruence. Qed.

(** Every token list is a run of rests followed by a list that is empty
    or starts with a pitch. *)
Lemma split_leading_rests (l : list token) :
  exists (a : nat) (l' : list token),
    l = replicate a None ++ l' /\ (l' = [] \/ exists p, head l' = Some (Some p)).
Proof.
  induction l as [|[p|] l (a & l' & -> & Hl')].
  - exists 0%nat, []. auto.
  - exists 0%nat, (Some p :: replicate a None ++ l'). split; [done |]. right. by exists p.
  - exists (S a), l'. auto.
Qed.

Lemma split_trailing_rests (l : list token) :
  exists (b : nat) (l' : list token),
    l = l' ++ replicate b None /\ (l' = [] \/ exists q, last l' = Some (Some q)).
Proof.
  induction l as [|[q|] l (b & l' & -> & Hl')] using rev_ind.
  - exists 0%nat, []. auto.
  - exists 0%nat, ((l' ++ replicate b None) ++ [Some q]).
    split; [by rewrite app_nil_r |]. right. exists q. apply last_snoc.
  - exists (S b), l'. split; [| done].
    by rewrite replicate_S_end, app_assoc.
Qed.

(** A token list with a pitch in it: leading rests, a core that starts
    and ends with a pitch, trailing rests. *)
Lemma rests_core_rests (tokens : list token) :
  (exists p, Some p ∈ tokens) ->
  exists (a b : nat) (core : list token) (p q : Z),
    tokens = replicate a None ++ core ++ replicate b None /\
    head core = Some (Some p) /\ last core = Some (Some q).
Proof.
  intros [p0 Hp0].
  destruct (split_leading_rests tokens) as (a & l' & -> & Hl').
  destruct Hl' as [-> | [p Hp]].
  { rewrite app_nil_r in Hp0. by apply elem_of_replicate in Hp0 as [? _]. }
  destruct (split_trailing_rests l') as (b & core & -> & Hcore).
  destruct Hcore as [-> | [q Hq]].
  { simpl in Hp. destruct b; simpl in Hp; congruence. }
  exists a, b, core, p, q. split; [done |]. split; [| done].
  destruct core as [|x core]; [done |]. exact Hp.
Qed.

(** The slice kept by the trimmer, when it cuts [lead] of the [a]
    leading rests and [trail] of the [b] trailing ones. *)
Lemma slice_rests_core_rests (a b lead trail : nat) (core : list token) :
  (lead <= a)%nat -> (trail <= b)%nat -> core <> [] ->
  let tokens := replicate a None ++ core ++ replicate b None in
  Py.slice tokens (Z.of_nat lead) (Z.of_nat (length tokens) - Z.of_nat trail - 1 + 1)
  = replicate (a - lead) None ++ core ++ replicate (b - trail) None.
Proof.
  intros Hlead Htrail Hcore tokens.
  assert (Hlen : length tokens = (a + (length core + b))%nat).
  { unfold tokens. by rewrite !length_app, !length_replicate. }
  assert (Hc : (0 < length core)%nat) by (destruct core; [done | simpl; lia]).
  unfold Py.slice, Py.slice_bound. rewrite Hlen.
  destruct (Z.ltb_spec (Z.of_nat lead) 0); [lia |].
  match goal with |- context [?x <? 0] => destruct (Z.ltb_spec x 0); [lia |] end.
  rewrite Z.min_l by lia. rewrite Z.min_l by lia.
  rewrite Nat2Z.id.
  replace (Z.to_nat _) with ((a - lead) + (length core + (b - trail)))%nat by lia.
  unfold tokens.
  rewrite drop_app_le by (rewrite length_replicate; lia).
  rewrite drop_replicate.
  rewrite take_app_ge by (rewrite length_replicate; lia).
  rewrite length_replicate.
  rewrite take_app_ge by lia.
  rewrite take_replicate. do 3 f_equal. lia.
Qed.

Lemma trim_rests_core_rests (a b : nat) (core : list token) (p q subdivision : Z) :
  head core = Some (Some p) -> last core = Some (Some q) ->
  let tokens := replicate a None ++ core ++ replicate b None in
  trim_and_convert_nones tokens subdivision =
  (let* q1 := Py.floordiv (Z.of_nat a) subdivision in
   let* q2 := Py.floordiv (Z.of_nat b) subdivision in
   Py.ret (map none_to_neg1
     (Py.slice tokens (q1 * subdivision)
        (Z.of_nat (length tokens) - q2 * subdivision - 1 + 1)))).
Proof.
  intros Hp Hq tokens. unfold trim_and_convert_nones.
  assert (Hc : (0 < length core)%nat) by (destruct core; [done | simpl; lia]).
  assert (Hlen : length tokens = (a + (length core + b))%nat).
  { unfold tokens. by rewrite !length_app, !length_replicate. }
  assert (Hfirst : scan_first tokens 0 = Z.of_nat a).
  { unfold tokens. rewrite scan_first_replicate.
    rewrite (scan_first_pitch _ p); [lia |].
    destruct core; [done | exact Hp]. }
  assert (Hlast : scan_last (reverse tokens) (Z.of_nat (length tokens) - 1)
                  = Z.of_nat (length tokens) - 1 - Z.of_nat b).
  { unfold tokens at 1. rewrite !reverse_app, reverse_replicate, <- app_assoc.
    rewrite scan_last_replicate. apply (scan_last_pitch _ q).
    rewrite head_app, head_reverse, Hq. done. }
  destruct tokens as [|t0 tokens'] eqn:Htok; [simpl in Hlen; lia |].
  rewrite <- Htok in *. rewrite Hfirst, Hlast.
  destruct (Z.ltb_spec (Z.of_nat (length tokens) - 1 - Z.of_nat b) (Z.of_nat a)); [lia |].
  replace (Z.of_nat (length tokens) - (Z.of_nat (length tokens) - 1 - Z.of_nat b) - 1)
    with (Z.of_nat b) by lia.
  reflexivity.
Qed.

(** C7: on a sequence with a pitch in it and a positive subdivision, the
    trimmer drops [(first // subdivision) * subdivision] of the leading
    rests and the like-rounded count of the trailing rests, and then
    writes every remaining rest as -1, leaving pitches as they are.  The
    scenario of the specification is the last conjunct. *)
Theorem trim_removes_whole_blocks (tokens : list token) (subdivision : Z) :
  (exists p, Some p ∈ tokens) -> 0 < subdivision ->
  (exists (a b : nat) (core : list token) (p q : Z),
     tokens = replicate a None ++ core ++ replicate b None /\
     head core = Some (Some p) /\ last core = Some (Some q) /\
     scan_first tokens 0 = Z.of_nat a /\
     let lead := Z.to_nat (Z.of_nat a / subdivision * subdivision) in
     let trail := Z.to_nat (Z.of_nat b / subdivision * subdivision) in
     (lead <= a)%nat /\ (trail <= b)%nat /\
     trim_and_convert_nones tokens subdivision
     = inr (map none_to_neg1
              (replicate (a - lead) None ++ core ++ replicate (b - trail) None)) /\
     trim_and_convert_nones tokens subdivision
     = inr (map none_to_neg1
              (take (length tokens - lead - trail) (drop lead tokens)))) /\
  trim_and_convert_nones
    [None; None; None; None; None; Some 60; None; Some 62; None; None; None] 4
  = inr [-1; 60; -1; 62; -1; -1; -1].
Proof.
  intros Hpitch Hsub. split; [| reflexivity].
  destruct (rests_core_rests tokens Hpitch) as (a & b & core & p & q & -> & Hp & Hq).
  exists a, b, core, p, q. split; [done |]. split; [done |]. split; [done |].
  assert (Hcore : core <> []) by (destruct core; [done | discriminate]).
  split.
  { rewrite scan_first_replicate, (scan_first_pitch _ p); [lia |].
    destruct core; [done | exact Hp]. }
  intros lead trail.
  assert (Hlead : (lead <= a)%nat).
  { unfold lead. pose proof (Z.mul_div_le (Z.of_nat a) subdivision Hsub).
    pose proof (Z.div_pos (Z.of_nat a) subdivision). nia. }
  assert (Htrail : (trail <= b)%nat).
  { unfold trail. pose proof (Z.mul_div_le (Z.of_nat b) subdivision Hsub).
    pose proof (Z.div_pos (Z.of_nat b) subdivision). nia. }
  split; [done |]. split; [done |].
  assert (Hres : trim_and_convert_nones
                   (replicate a None ++ core ++ replicate b None) subdivision
                 = inr (map none_to_neg1
                     (replicate (a - lead) None ++ core ++ replicate (b - trail) None))).
  { rewrite (trim_rests_core_rests a b core p q) by done.
    floordiv_defined. do 2 f_equal.
    rewrite <- (slice_rests_core_rests a b lead trail core) by done.
    cbv zeta. f_equal.
    - unfold lead. pose proof (Z.div_pos (Z.of_nat a) subdivision). nia.
    - unfold trail. pose proof (Z.div_pos (Z.of_nat b) subdivision). nia. }
  split; [exact Hres |]. rewrite Hres. do 2 f_equal.
  rewrite !length_app, !length_replicate.
  rewrite drop_app_le by (rewrite length_replicate; lia).
  rewrite drop_replicate.
  rewrite take_app_ge by (rewrite length_replicate; lia).
  rewrite length_replicate.
  rewrite take_app_ge by lia.
  rewrite take_replicate. do 3 f_equal. lia.
Qed.

Lemma trim_removes_whole_blocks_witness :
  let tokens := [None; None; None; None; None; Some 60; None; Some 62; None; None; None] in
  (exists p, Some p ∈ tokens) /\ 0 < 4 /\
  exists (a b : nat) (core : list token),
    tokens = replicate a None ++ core ++ replicate b None /\
    scan_first tokens 0 = Z.of_nat a /\
    trim_and_convert_nones tokens 4
    = inr (map none_to_neg1
             (replicate (a - Z.to_nat (Z.of_nat a / 4 * 4)) None ++ core ++
              replicate (b - Z.to_nat (Z.of_nat b / 4 * 4)) None)).
Proof.
  intros tokens.
  assert (H1 : exists p, Some p ∈ tokens).
  { exists 60. apply list_elem_of_In. simpl. auto 10. }
  assert (H2 : 0 < 4) by lia.
  split; [exact H1 |]. split; [exact H2 |].
  destruct (trim_removes_whole_blocks tokens 4 H1 H2)
    as [(a & b & core & p & q & Hsplit & _ & _ & Hfirst & _ & _ & Hres & _) _].
  exists a, b, core. auto.
Defined.

(** ** The sentinel coding *)

(** C8: writing a rest as -1 and reading -1 back as a rest returns every
    token other than the pitch -1 unchanged, element by element and on
    whole lists; a rest goes to -1 and -1 goes back to a rest. *)
Theorem sentinel_round_trip (t : token) (l : list token) :
  t <> Some (-1) -> Forall (fun x => x <> Some (-1)) l ->
  neg1_to_none (none_to_neg1 t) = t /\
  replace_neg1_with_none (map none_to_neg1 l) = l /\
  none_to_neg1 None = -1 /\ neg1_to_none (-1) = None /\
  (forall p, t = Some p -> none_to_neg1 t = p /\ neg1_to_none p = Some p).
Proof.
  assert (Hone : forall x : token, x <> Some (-1) -> neg1_to_none (none_to_neg1 x) = x).
  { intros [v|] Hx; [| reflexivity]. unfold neg1_to_none, none_to_neg1.
    destruct (Z.eqb_spec v (-1)) as [->|_]; [done | reflexivity]. }
  intros Ht Hl. split; [by apply Hone |]. split.
  - unfold replace_neg1_with_none. induction Hl as [|x l Hx _ IH]; [done |].
    simpl. by rewrite Hone, IH.
  - split; [reflexivity |]. split; [reflexivity |].
    intros p ->. split; [reflexivity |]. exact (Hone (Some p) Ht).
Qed.

Lemma sentinel_round_trip_witness :
  neg1_to_none (none_to_neg1 (Some 60)) = Some 60 /\
  replace_neg1_with_none (map none_to_neg1 [None; Some 60; None; Some 62])
  = [None; Some 60; None; Some 62].
Proof.
  destruct (sentinel_round_trip (Some 60) [None; Some 60; None; Some 62])
    as (H1 & H2 & _).
  - discriminate.
  - repeat constructor; discriminate.
  - split; [exact H1 | exact H2].
Defined.

(** ** The scenario at 480 ticks per beat, 6 steps per beat *)

(** C9: the step size is 80; a note 60 switched on at tick 0 and off at
    tick 160 is sampled at ticks 0, 80 and 160 and gives the grid
    [60, 60, rest]; that grid is synthesized as note_on 60 after 0 ticks
    and note_off 60 after 160 ticks. *)
Theorem scenario_480_6 (v_on v_off : Z) :
  0 < v_on ->
  let msgs := [mkMessage note_on 60 v_on 0; mkMessage note_off 60 v_off 160] in
  Py.floordiv 480 6 = inr 80 /\
  map fst (timeline msgs) = [0; 160] /\
  Py.range 0 (final_time_of (timeline msgs) + 80) 80 = inr [0; 80; 160] /\
  extract_tokens_with_granularity msgs 480 6 = inr [Some 60; Some 60; None] /\
  generate_midi_from_tokens [Some 60; Some 60; None] 480 6
  = inr [mkMessage note_on 60 64 0; mkMessage note_off 60 0 160].
Proof.
  intros Hv msgs. repeat split; try reflexivity.
  unfold extract_tokens_with_granularity, msgs.
  change (Py.floordiv 480 6) with (@inr Py.error Z 80).
  cbn [Py.bind timeline timeline_from time].
  change (Py.range 0 _ 80) with (@inr Py.error (list Z) [0; 80; 160]).
  cbn [Py.bind sample_loop drain fst apply_event type velocity note].
  apply Z.ltb_lt in Hv. rewrite Hv.
  vm_compute. reflexivity.
Qed.

Lemma scenario_480_6_witness :
  extract_tokens_with_granularity
    [mkMessage note_on 60 64 0; mkMessage note_off 60 0 160] 480 6
  = inr [Some 60; Some 60; None].
Proof.
  refine (proj1 (proj2 (proj2 (proj2 (scenario_480_6 64 0 _))))). lia.
Defined.

(** ** What happens at unusable resolutions *)

Lemma trim_all_rests (tokens : list token) (subdivision : Z) :
  (forall x, x ∈ tokens -> x = None) ->
  trim_and_convert_nones tokens subdivision = inr [].
Proof.
  intros Hall.
  destruct (split_leading_rests tokens) as (a & l' & Heq & [-> | [p Hp]]).
  - rewrite app_nil_r in Heq. subst tokens.
    destruct a as [|a]; [reflexivity |].
    unfold trim_and_convert_nones.
    change (replicate (S a) None) with (@None Z :: replicate a None) at 1.
    cbv iota.
    pose proof (scan_first_replicate (S a) [] 0) as Hf.
    rewrite app_nil_r in Hf. rewrite Hf.
    pose proof (scan_last_replicate (S a) []
                  (Z.of_nat (length (replicate (S a) (@None Z))) - 1)) as Hl.
    rewrite app_nil_r in Hl. rewrite reverse_replicate, Hl.
    rewrite length_replicate. cbn [scan_first scan_last].
    destruct (Z.ltb_spec (Z.of_nat (S a) - 1 - Z.of_nat (S a)) (0 + Z.of_nat (S a)));
      [reflexivity | lia].
  - destruct l' as [|x l']; [done |]. simpl in Hp. injection Hp as ->.
    assert (Hin : Some p ∈ tokens).
    { rewrite Heq. apply elem_of_app. right. left. }
    by apply Hall in Hin.
Qed.

Lemma trim_total (tokens : list token) (subdivision : Z) :
  subdivision <> 0 -> exists out, trim_and_convert_nones tokens subdivision = inr out.
Proof.
  intros Hs. unfold trim_and_convert_nones, Py.floordiv.
  destruct (Z.eqb_spec subdivision 0) as [|_]; [done |].
  destruct tokens as [|t0 tokens]; [by eexists |].
  match goal with |- context [if ?c then _ else _] => destruct c end;
    cbn [Py.bind Py.ret]; by eexists.
Qed.

(** C4, as the specification words it, fails: a negative subdivision is
    not rejected by the quantizer or by the trimmer, and the trimmer
    accepts subdivision 0 on an empty sequence. *)
Lemma nonpositive_subdivision_is_accepted :
  extract_tokens_with_granularity [] 480 (-6) = inr [None] /\
  trim_and_convert_nones [None; Some 60] (-1) = inr [60] /\
  trim_and_convert_nones [] 0 = inr [].
Proof. repeat split; reflexivity. Qed.

(** C4 (amended): the quantizer fails, before any token is produced, with
    [ZeroDivisionError] at subdivision 0 and with [ValueError] when
    [0 <= ticks_per_beat < subdivision] makes the step size 0; the
    trimmer fails with [ZeroDivisionError] at subdivision 0 when the
    sequence holds a pitch.  A negative subdivision is not rejected: with
    positive ticks per beat the quantizer returns a grid, and the trimmer
    returns a sequence at every non-zero subdivision, the empty one when
    there is no pitch. *)
Theorem resolution_failures (msgs : list Message) (tokens : list token)
    (ticks_per_beat subdivision : Z) :
  extract_tokens_with_granularity msgs ticks_per_beat 0 = inl Py.ZeroDivisionError /\
  (0 <= ticks_per_beat < subdivision ->
   extract_tokens_with_granularity msgs ticks_per_beat subdivision = inl Py.ValueError) /\
  ((exists p, Some p ∈ tokens) ->
   trim_and_convert_nones tokens 0 = inl Py.ZeroDivisionError) /\
  (subdivision < 0 < ticks_per_beat ->
   exists toks, extract_tokens_with_granularity msgs ticks_per_beat subdivision = inr toks) /\
  (subdivision <> 0 ->
   exists out, trim_and_convert_nones tokens subdivision = inr out) /\
  ((forall x, x ∈ tokens -> x = None) ->
   trim_and_convert_nones tokens subdivision = inr []).
Proof.
  split; [reflexivity |]. split; [| split; [| split; [| split]]].
  - intros Htpb. unfold extract_tokens_with_granularity, Py.floordiv.
    destruct (Z.eqb_spec subdivision 0) as [|_]; [lia |].
    rewrite Z.div_small by lia. reflexivity.
  - intros Hpitch.
    destruct (rests_core_rests tokens Hpitch) as (a & b & core & p & q & -> & Hp & Hq).
    by rewrite (trim_rests_core_rests a b core p q).
  - intros [Hs Htpb]. apply extract_total; [lia |].
    pose proof (Z.div_mod ticks_per_beat subdivision ltac:(lia)).
    pose proof (Z.mod_neg_bound ticks_per_beat subdivision Hs). nia.
  - apply trim_total.
  - apply trim_all_rests.
Qed.

Lemma resolution_failures_witness :
  extract_tokens_with_granularity [mkMessage note_on 60 64 0] 4 6 = inl Py.ValueError /\
  trim_and_convert_nones [None; Some 60] 0 = inl Py.ZeroDivisionError /\
  (exists toks, extract_tokens_with_granularity [mkMessage note_on 60 64 0] 480 (-6)
                = inr toks) /\
  (exists out, trim_and_convert_nones [None; Some 60] (-4) = inr out) /\
  trim_and_convert_nones [None; None] (-4) = inr [].
Proof.
  split; [| split; [| split; [| split]]].
  - apply (resolution_failures [mkMessage note_on 60 64 0] [] 4 6). lia.
  - apply (resolution_failures [] [None; Some 60] 1 1).
    exists 60. apply list_elem_of_In. simpl. auto.
  - apply (resolution_failures [mkMessage note_on 60 64 0] [] 480 (-6)). lia.
  - apply (resolution_failures [] [None; Some 60] 1 (-4)). lia.
  - apply (resolution_failures [] [None; None] 1 (-4)).
    intros x Hx. apply list_elem_of_In in Hx. simpl in Hx. intuition.
Defined.

(** ** Duration and pairing of the synthesized track *)

Lemma strip_replicate_rests (k : nat) : strip_trailing_rests (replicate k None) = [].
Proof. induction k as [|k IH]; [done |]. simpl. by rewrite IH. Qed.

Lemma strip_body_rests (body : list token) (k : nat) :
  last body <> Some None ->
  strip_trailing_rests (body ++ replicate k None) = body.
Proof.
  induction body as [|x body IH]; intros Hlast.
  - apply strip_replicate_rests.
  - cbn [app strip_trailing_rests]. destruct body as [|y body].
    + cbn [app]. rewrite strip_replicate_rests. destruct x; [done | by destruct Hlast].
    + rewrite IH by (by rewrite last_cons_cons in Hlast).
      by destruct x.
Qed.

Lemma track_length_app (l1 l2 : list Message) :
  track_length (l1 ++ l2) = track_length l1 + track_length l2.
Proof. induction l1 as [|m l1 IH]; simpl; [done |]. rewrite IH. lia. Qed.

Lemma track_length_transition (delta : Z) (prev tok : token) :
  tok <> prev ->
  track_length (imap (written_message delta) (transition_events prev tok)) = delta.
Proof.
  intros Hne. destruct prev as [p|], tok as [n|]; simpl; try lia. done.
Qed.

Lemma track_length_synth_msgs (step_size : Z) (tokens : list token) :
  forall (i cur : Z) (prev : token),
    cur + track_length (synth_msgs step_size i cur prev tokens)
    = if decide (prev = None /\ strip_trailing_rests tokens = []) then cur
      else (i + Z.of_nat (length (strip_trailing_rests tokens))) * step_size.
Proof.
  induction tokens as [|tok rest IH]; intros i cur prev.
  - cbn [synth_msgs strip_trailing_rests length].
    destruct prev as [p|]; case_decide as Hd;
      cbn [track_length foldr time]; try lia.
    + by destruct Hd.
    + by destruct Hd.
  - cbn [synth_msgs]. destruct (decide (tok = prev)) as [->|Hne].
    + rewrite IH. cbn [strip_trailing_rests].
      destruct prev as [p|].
      * repeat case_decide; first [cbn [length]; lia | (exfalso; intuition congruence)].
      * destruct (strip_trailing_rests rest) as [|y kept];
          repeat case_decide; first [cbn [length]; lia | (exfalso; intuition congruence)].
    + rewrite track_length_app, track_length_transition by done.
      specialize (IH (i + 1) (i * step_size) tok).
      cbn [strip_trailing_rests].
      destruct tok as [n|].
      * repeat case_decide; first [cbn [length]; lia | (exfalso; intuition congruence)].
      * destruct prev as [p|]; [| done].
        destruct (strip_trailing_rests rest) as [|y kept];
          repeat case_decide; first [cbn [length] in *; lia | (exfalso; intuition congruence)].
Qed.

(** C3, as the specification words it, fails on a grid that ends with a
    rest: the track of the scenario grid lasts 160 ticks, not
    [3 * 80 = 240]. *)
Lemma trailing_rest_is_not_counted :
  exists msgs,
    generate_midi_from_tokens [Some 60; Some 60; None] 480 6 = inr msgs /\
    track_length msgs = 160 /\
    track_length msgs <> Z.of_nat (length [Some 60; Some 60; @None Z]) * (480 / 6).
Proof. eexists. split; [reflexivity |]. split; [reflexivity | discriminate]. Qed.

Lemma pitch_in_range_rests (body : list token) (k : nat) :
  Forall pitch_in_range body -> Forall pitch_in_range (body ++ replicate k None).
Proof.
  intros Hbody. apply Forall_app. split; [done |].
  apply Forall_replicate. by intros p.
Qed.

(** C3 (amended): for a grid whose pitches lie in 0..127, at a
    resolution with a non-zero subdivision and a step size that is not
    negative, the deltas of the synthesized track add up to the number
    of tokens up to and including the last pitch, times the step size:
    the trailing rests of the grid take no time.  When the grid has no
    trailing rest this is the length of the grid times the step size. *)
Theorem synthesized_track_length (body : list token) (k : nat)
    (ticks_per_beat subdivision : Z) :
  subdivision <> 0 -> 0 <= ticks_per_beat / subdivision ->
  Forall pitch_in_range body -> last body <> Some None ->
  let tokens := body ++ replicate k None in
  let step_size := ticks_per_beat / subdivision in
  exists msgs,
    generate_midi_from_tokens tokens ticks_per_beat subdivision = inr msgs /\
    track_length msgs = Z.of_nat (length body) * step_size /\
    track_length msgs = (Z.of_nat (length tokens) - Z.of_nat k) * step_size /\
    (k = 0%nat -> track_length msgs = Z.of_nat (length tokens) * step_size).
Proof.
  intros Hs Hstep Hok Hlast tokens step_size.
  exists (synth_msgs step_size 0 0 None tokens).
  split; [apply generate_unfold; [done | done | by apply pitch_in_range_rests] |].
  assert (Hlen : track_length (synth_msgs step_size 0 0 None tokens)
                 = Z.of_nat (length body) * step_size).
  { pose proof (track_length_synth_msgs step_size tokens 0 0 None) as H.
    unfold tokens in *. rewrite !strip_body_rests in H by done.
    case_decide as Hd; [destruct Hd as [_ ->] |]; simpl in *; lia. }
  split; [exact Hlen |]. rewrite Hlen.
  unfold tokens. rewrite length_app, length_replicate.
  split; [f_equal; lia | intros ->; f_equal; lia].
Qed.

Lemma synthesized_track_length_witness :
  exists msgs,
    generate_midi_from_tokens ([Some 60; Some 60] ++ replicate 1 None) 480 6 = inr msgs /\
    track_length msgs = Z.of_nat (length [Some 60; Some 60]) * (480 / 6).
Proof.
  destruct (synthesized_track_length [Some 60; Some 60] 1 480 6)
    as (msgs & Hgen & Hlen & _).
  - lia.
  - vm_compute. discriminate.
  - apply forallb_token_ok. reflexivity.
  - discriminate.
  - exists msgs. split; [exact Hgen | exact Hlen].
Defined.

Lemma paired_next (msgs : list Message) :
  paired msgs ->
  forall (i : nat) (m : Message),
    msgs !! i = Some m -> type m = note_on ->
    exists m', msgs !! S i = Some m' /\ type m' = note_off /\ note m' = note m.
Proof.
  induction 1 as [|m_on m_off rest Hon Hoff Hnote _ IH]; intros i m Hi Hm.
  - done.
  - destruct i as [|[|i]]; simpl in Hi.
    + injection Hi as <-. exists m_off. done.
    + injection Hi as <-. congruence.
    + destruct (IH i m Hi Hm) as (m' & ? & ? & ?). exists m'. done.
Qed.

(** The messages after a point where [prev] sounds: first the note_off
    of [prev], if it is a pitch, then pairs. *)
Lemma synth_msgs_paired (step_size : Z) (tokens : list token) :
  forall (i cur : Z) (prev : token),
    match prev with
    | None => paired (synth_msgs step_size i cur prev tokens)
    | Some p =>
        exists delta rest,
          synth_msgs step_size i cur prev tokens = mkMessage note_off p 0 delta :: rest /\
          paired rest
    end.
Proof.
  induction tokens as [|tok rest IH]; intros i cur prev.
  - destruct prev as [p|]; simpl; [| constructor].
    eexists _, []. split; [done | constructor].
  - cbn [synth_msgs]. destruct (decide (tok = prev)) as [->|Hne]; [apply IH |].
    specialize (IH (i + 1) (i * step_size) tok).
    destruct prev as [p|], tok as [n|]; simpl; try done.
    + destruct IH as (delta & rest' & -> & Hrest).
      eexists _, _. split; [done |]. by constructor.
    + eexists _, _. split; [done | exact IH].
    + destruct IH as (delta & rest' & -> & Hrest). by constructor.
Qed.

Lemma synth_step_previous (step_size : Z) (st st' : synth_state) (i : Z) (tok : token) :
  synth_step step_size st i tok = inr st' -> previous_token st' = tok.
Proof.
  unfold synth_step. destruct (decide (tok = previous_token st)) as [->|Hne].
  - by intros [= <-].
  - destruct (append_events _ 0 _ _) as [e|msgs]; [done |]. by intros [= <-].
Qed.

Lemma synth_loop_previous (step_size : Z) (tokens : list token) :
  forall (i : Z) (st st' : synth_state),
    synth_loop step_size i tokens st = inr st' ->
    previous_token st' = default (previous_token st) (last tokens).
Proof.
  induction tokens as [|tok rest IH]; intros i st st' Hloop.
  - by injection Hloop as <-.
  - cbn [synth_loop] in Hloop.
    destruct (synth_step step_size st i tok) as [e|st1] eqn:Hstep; [done |].
    cbn [Py.bind] in Hloop. rewrite (IH _ _ _ Hloop).
    rewrite (synth_step_previous _ _ _ _ _ Hstep).
    destruct rest as [|y rest]; [done |].
    rewrite last_cons_cons.
    destruct (last (y :: rest)) eqn:E; [done | by apply last_None in E].
Qed.

(** C6: in every track that the synthesizer returns, every note_on is
    followed, in the very next message, by the note_off of the same
    pitch; and when the grid ends with a pitch [p], the track is the
    track built by the loop with one more message, the note_off of [p]
    whose delta time is [len(tokens) * step_size - current_time].  The
    synthesizer returns a track for every grid whose pitches lie in
    0..127, when the subdivision is not zero and the step size is not
    negative. *)
Theorem every_note_on_is_closed (tokens : list token) (ticks_per_beat subdivision : Z) :
  let step_size := ticks_per_beat / subdivision in
  (forall msgs,
     generate_midi_from_tokens tokens ticks_per_beat subdivision = inr msgs ->
     (forall (i : nat) (m : Message),
        msgs !! i = Some m -> type m = note_on ->
        exists (j : nat) (m' : Message),
          (i < j)%nat /\ j = S i /\ msgs !! j = Some m' /\
          type m' = note_off /\ note m' = note m) /\
     exists st,
       synth_loop step_size 0 tokens (mkSynth [] 0 None) = inr st /\
       (forall p, last tokens = Some (Some p) ->
          previous_token st = Some p /\
          msgs = track st ++
                 [mkMessage note_off p 0
                    (Z.of_nat (length tokens) * step_size - current_time st)]) /\
       (last tokens = Some None \/ tokens = [] -> msgs = track st)) /\
  (subdivision <> 0 -> 0 <= step_size -> Forall pitch_in_range tokens ->
   exists msgs, generate_midi_from_tokens tokens ticks_per_beat subdivision = inr msgs).
Proof.
  intros step_size. split; [| intros Hs Hstep Hok; eexists; by apply generate_unfold].
  intros msgs Hgen. split.
  - destruct (generate_returns _ _ _ _ Hgen) as (_ & _ & -> & _).
    intros i m Hi Hm.
    pose proof (synth_msgs_paired (ticks_per_beat / subdivision) tokens 0 0 None)
      as Hpaired.
    cbv beta iota in Hpaired.
    destruct (paired_next _ Hpaired i m Hi Hm) as (m' & ? & ? & ?).
    exists (S i), m'. repeat split; try done. lia.
  - revert Hgen. unfold generate_midi_from_tokens, Py.floordiv.
    destruct (subdivision =? 0); [done |]. cbn [Py.bind Py.ret]. fold step_size.
    destruct (synth_loop step_size 0 tokens _) as [e|st] eqn:Hloop; [done |].
    cbn [Py.bind].
    destruct (synth_flush step_size _ st) as [e|flushed] eqn:Hflush; [done |].
    cbn [Py.bind]. destruct (midi_save flushed); [done |].
    cbn [Py.bind]. intros [= <-]. exists st. split; [done |].
    pose proof (synth_loop_previous _ _ _ _ _ Hloop) as Hprev.
    cbn [previous_token] in Hprev. unfold synth_flush in Hflush. split.
    + intros p Hp. rewrite Hp in Hprev. simpl in Hprev.
      split; [exact Hprev |]. rewrite Hprev in Hflush. unfold new_message in Hflush.
      destruct (data_byte p && data_byte 0); [| done].
      cbn [Py.bind Py.ret] in Hflush. by injection Hflush as <-.
    + intros Hrest. assert (Hnone : previous_token st = None).
      { destruct Hrest as [Hl | ->]; [by rewrite Hl in Hprev | done]. }
      rewrite Hnone in Hflush. cbn [Py.ret] in Hflush. by injection Hflush as <-.
Qed.

Lemma every_note_on_is_closed_witness :
  exists msgs,
    generate_midi_from_tokens [Some 60; Some 62; None; Some 64] 480 6 = inr msgs /\
    length msgs = 6%nat /\
    last msgs = Some (mkMessage note_off 64 0 80).
Proof.
  destruct (every_note_on_is_closed [Some 60; Some 62; None; Some 64] 480 6)
    as [Hclosed Hreturns].
  destruct Hreturns as [msgs Hgen].
  - lia.
  - vm_compute. discriminate.
  - apply forallb_token_ok. reflexivity.
  - exists msgs. split; [exact Hgen |].
    destruct (Hclosed msgs Hgen) as (_ & st & Hloop & Hlast & _).
    vm_compute in Hloop. injection Hloop as <-.
    destruct (Hlast 64 eq_refl) as [_ ->]. split; reflexivity.
Defined.

(** ** The quantizer on a track with non-negative delta times *)

Lemma timeline_from_sorted (msgs : list Message) :
  Forall (fun msg => 0 <= time msg) msgs ->
  forall c, StronglySorted by_time (timeline_from c msgs) /\
            Forall (fun ev => c <= fst ev) (timeline_from c msgs).
Proof.
  induction 1 as [|msg msgs Hmsg _ IH]; intros c; simpl.
  - split; constructor.
  - destruct (IH (c + time msg)) as [Hsorted Hall]. split.
    + constructor; [done |]. eapply Forall_impl; [exact Hall |].
      intros ev Hev. unfold by_time. simpl in *. lia.
    + constructor; [simpl; lia |]. eapply Forall_impl; [exact Hall |].
      intros ev Hev. simpl in *. lia.
Qed.

Lemma filter_all {A} (P : A -> Prop) `{forall x, Decision (P x)} (l : list A) :
  Forall P l -> filter P l = l.
Proof.
  induction 1 as [|x l Hx _ IH]; [done |].
  by rewrite filter_cons_True, IH.
Qed.

Lemma filter_none {A} (P : A -> Prop) `{forall x, Decision (P x)} (l : list A) :
  Forall (fun x => ~ P x) l -> filter P l = [].
Proof.
  induction 1 as [|x l Hx _ IH]; [done |].
  by rewrite filter_cons_False, IH.
Qed.

Lemma sorted_filter_later (t : Z) (events : list (Z * Message)) :
  StronglySorted by_time events ->
  StronglySorted by_time (filter (fun ev => t < fst ev) events).
Proof.
  induction 1 as [|ev events _ IH Hall]; [constructor |].
  destruct (decide (t < fst ev)) as [Hlt|Hge].
  - rewrite filter_cons_True by done. constructor; [done |].
    apply Forall_forall. intros x Hx. apply list_elem_of_filter in Hx as [_ Hx].
    rewrite Forall_forall in Hall. by apply Hall.
  - by rewrite filter_cons_False.
Qed.

(** On events in temporal order the [while] loop consumes exactly the
    events at or before [t]. *)
Lemma drain_sorted (t : Z) (events : list (Z * Message)) :
  StronglySorted by_time events ->
  forall A, drain t events A
            = (filter (fun ev => t < fst ev) events,
               foldl apply_event A (filter (fun ev => fst ev <= t) events)).
Proof.
  induction 1 as [|ev events Hsorted IH Hall]; intros A; [done |].
  cbn [drain]. destruct (Z.leb_spec (fst ev) t) as [Hle|Hgt].
  - rewrite IH. rewrite (filter_cons_True (fun ev => fst ev <= t)) by done.
    rewrite (filter_cons_False (fun ev => t < fst ev)) by lia. done.
  - assert (Hlater : Forall (fun e => t < fst e) (ev :: events)).
    { constructor; [done |]. eapply Forall_impl; [exact Hall |].
      unfold by_time. intros e He. simpl in *. lia. }
    rewrite (filter_all (fun ev => t < fst ev)) by done.
    rewrite (filter_none (fun ev => fst ev <= t)); [done |].
    eapply Forall_impl; [exact Hlater |]. intros e He. simpl in *. lia.
Qed.

Lemma filter_by_two_times (t0 t : Z) (events : list (Z * Message)) :
  StronglySorted by_time events -> t0 <= t ->
  filter (fun ev => fst ev <= t) events
  = filter (fun ev => fst ev <= t0) events ++
    filter (fun ev => fst ev <= t) (filter (fun ev => t0 < fst ev) events).
Proof.
  intros Hsorted Ht. induction Hsorted as [|ev events _ IH Hall]; [done |].
  destruct (decide (fst ev <= t0)) as [Hle|Hgt].
  - rewrite (filter_cons_True (fun ev => fst ev <= t0)) by done.
    rewrite (filter_cons_True (fun ev => fst ev <= t)) by lia.
    rewrite (filter_cons_False (fun ev => t0 < fst ev)) by lia.
    by rewrite IH.
  - assert (Hlater : Forall (fun e => t0 < fst e) (ev :: events)).
    { constructor; [lia |]. eapply Forall_impl; [exact Hall |].
      unfold by_time. intros e He. simpl in *. lia. }
    rewrite (filter_all (fun ev => t0 < fst ev)) by done.
    rewrite (filter_none (fun ev => fst ev <= t0)); [done |].
    eapply Forall_impl; [exact Hlater |]. intros e He. simpl in *. lia.
Qed.

(** On events in temporal order and non-decreasing sample times, the
    token of a step is the one chosen from the dictionary holding every
    event at or before the step. *)
Lemma sample_loop_sorted (ts : list Z) :
  forall (events : list (Z * Message)) (A : gmap Z Z) (toks : list token),
    StronglySorted by_time events -> StronglySorted Z.le ts ->
    sample_loop ts events A = inr toks ->
    forall (k : nat) (t : Z),
      ts !! k = Some t ->
      exists tok,
        toks !! k = Some tok /\
        current_token (foldl apply_event A (filter (fun ev => fst ev <= t) events))
        = inr tok.
Proof.
  induction ts as [|t0 ts IH]; intros events A toks Hev Hts Hrun k t Hk; [done |].
  cbn [sample_loop] in Hrun. rewrite drain_sorted in Hrun by done.
  apply StronglySorted_cons in Hts as [Hall Hts].
  destruct (current_token _) as [e|tok0] eqn:Htok0 in Hrun; [done |].
  cbn [Py.bind] in Hrun.
  destruct (sample_loop ts _ _) as [e|toks'] eqn:Hrest in Hrun; [done |].
  cbn [Py.bind Py.ret] in Hrun. injection Hrun as <-.
  destruct k as [|k]; simpl in Hk.
  - injection Hk as <-. exists tok0. done.
  - assert (Ht : t0 <= t).
    { rewrite Forall_forall in Hall. apply Hall. by eapply list_elem_of_lookup_2. }
    destruct (IH _ _ _ (sorted_filter_later t0 events Hev) Hts Hrest k t Hk)
      as (tok & Hlook & Htok).
    exists tok. split; [done |].
    by rewrite (filter_by_two_times t0 t events Hev Ht), foldl_app.
Qed.

Lemma final_time_nonneg (msgs : list Message) :
  Forall (fun msg => 0 <= time msg) msgs -> 0 <= final_time_of (timeline msgs).
Proof.
  intros Hmsgs. unfold final_time_of, timeline.
  destruct (last (timeline_from 0 msgs)) as [ev|] eqn:Hlast; [| done].
  destruct (timeline_from_sorted msgs Hmsgs 0) as [_ Hall].
  rewrite Forall_forall in Hall. apply Hall.
  apply last_Some in Hlast as [l' ->]. apply elem_of_app. right. left.
Qed.

Lemma grid_times_sorted (lo step : Z) (n : nat) :
  0 <= step ->
  forall s : nat,
    StronglySorted Z.le (map (fun k : nat => lo + Z.of_nat k * step) (seq s n)).
Proof.
  intros Hstep. induction n as [|n IH]; intros s; [constructor |].
  cbn [seq map]. constructor; [apply IH |].
  apply Forall_forall. intros y Hy.
  apply list_elem_of_In, in_map_iff in Hy as (k & <- & Hk).
  apply in_seq in Hk. nia.
Qed.

(** The sample times of the quantizer never decrease when the final time
    is not negative: with a negative step there is at most one. *)
Lemma range_sorted (final_time step : Z) (ts : list Z) :
  0 <= final_time ->
  Py.range 0 (final_time + step) step = inr ts ->
  StronglySorted Z.le ts.
Proof.
  intros Hfinal. unfold Py.range.
  destruct (Z.eqb_spec step 0) as [|Hne]; [done |].
  intros [= <-]. destruct (Z.ltb_spec 0 step) as [Hpos|Hneg].
  - apply grid_times_sorted. lia.
  - assert (Hlen : Py.range_length 0 (final_time + step) step <= 1).
    { unfold Py.range_length.
      destruct (Z.ltb_spec 0 step); [lia |].
      destruct (Z.ltb_spec (final_time + step) 0); [| lia].
      rewrite Z.div_small; lia. }
    destruct (Z.to_nat (Py.range_length 0 (final_time + step) step))
      as [|[|n]] eqn:Hn; [constructor | | lia].
    cbn [seq map]. repeat constructor.
Qed.

(** C2: on a track with non-negative delta times, at every usable
    resolution, the token of each sample step [t] is chosen from the
    active-note dictionary that holds every event at or before [t]: a
    rest when it is empty, and otherwise its largest pitch, so that of
    two sounding pitches the greater one is the token whatever their
    start times. *)
Theorem token_is_highest_active_pitch (msgs : list Message)
    (ticks_per_beat subdivision : Z) :
  Forall (fun msg => 0 <= time msg) msgs ->
  subdivision <> 0 -> ticks_per_beat / subdivision <> 0 ->
  let step_size := ticks_per_beat / subdivision in
  let events := timeline msgs in
  exists (ts : list Z) (tokens : list token),
    Py.range 0 (final_time_of events + step_size) step_size = inr ts /\
    extract_tokens_with_granularity msgs ticks_per_beat subdivision = inr tokens /\
    length tokens = length ts /\
    forall (k : nat) (t : Z),
      ts !! k = Some t ->
      let active := active_at events t in
      (active = ∅ -> tokens !! k = Some None) /\
      (active <> ∅ ->
       exists p, tokens !! k = Some (Some p) /\ is_Some (active !! p) /\
                 forall q, is_Some (active !! q) -> q <= p) /\
      (forall p1 p2 s1 s2,
         active !! p1 = Some s1 -> active !! p2 = Some s2 ->
         (forall q, is_Some (active !! q) -> q = p1 \/ q = p2) ->
         tokens !! k = Some (Some (Z.max p1 p2))).
Proof.
  intros Hmsgs Hs Hstep step_size events.
  unfold extract_tokens_with_granularity. floordiv_defined.
  fold step_size events.
  destruct (Py.range 0 (final_time_of events + step_size) step_size)
    as [e|ts] eqn:Hrange.
  { unfold Py.range in Hrange.
    by destruct (Z.eqb_spec step_size 0) as [|_]. }
  cbn [Py.bind].
  destruct (sample_loop_total ts events ∅) as (tokens & Hrun & Hlen).
  exists ts, tokens. split; [done |]. split; [done |]. split; [done |].
  intros k t Hk. set (active := active_at events t).
  assert (Hsorted : StronglySorted by_time events).
  { by apply timeline_from_sorted. }
  assert (Hts : StronglySorted Z.le ts).
  { eapply range_sorted; [| exact Hrange]. by apply final_time_nonneg. }
  destruct (sample_loop_sorted ts events ∅ tokens Hsorted Hts Hrun k t Hk)
    as (tok & Hlook & Htok).
  fold (active_at events t) in Htok. fold active in Htok.
  destruct (current_token_spec active) as [[Hempty Hcur]|[Hne (p & Hcur & Hin & Hmax)]];
    rewrite Hcur in Htok; injection Htok as <-.
  - split; [done |]. split; [done |].
    intros p1 p2 s1 s2 H1. by rewrite Hempty, lookup_empty in H1.
  - split; [done |]. split; [by exists p |].
    intros p1 p2 s1 s2 H1 H2 Honly. rewrite Hlook. do 2 f_equal.
    pose proof (Hmax p1 (mk_is_Some _ _ H1)).
    pose proof (Hmax p2 (mk_is_Some _ _ H2)).
    destruct (Honly p Hin) as [-> | ->]; lia.
Qed.

Lemma token_is_highest_active_pitch_witness :
  let msgs := [mkMessage note_on 64 90 0; mkMessage note_on 60 90 10;
               mkMessage note_off 64 0 190; mkMessage note_off 60 0 0] in
  exists (ts : list Z) (tokens : list token),
    Py.range 0 (final_time_of (timeline msgs) + 480 / 6) (480 / 6) = inr ts /\
    extract_tokens_with_granularity msgs 480 6 = inr tokens /\
    ts !! 1%nat = Some 80 /\
    tokens !! 1%nat = Some (Some (Z.max 60 64)).
Proof.
  intros msgs.
  destruct (token_is_highest_active_pitch msgs 480 6)
    as (ts & tokens & Hrange & Hrun & _ & Hstep).
  - repeat constructor; simpl; lia.
  - lia.
  - vm_compute. discriminate.
  - exists ts, tokens. split; [exact Hrange |]. split; [exact Hrun |].
    assert (Hts : ts !! 1%nat = Some 80).
    { vm_compute in Hrange. injection Hrange as <-. reflexivity. }
    split; [exact Hts |].
    destruct (Hstep 1%nat 80 Hts) as (_ & _ & Htwo).
    apply (Htwo 60 64 10 0).
    + vm_compute. reflexivity.
    + vm_compute. reflexivity.
    + intros q [s Hq].
      destruct (decide (q = 60)) as [->|H60]; [by left |].
      destruct (decide (q = 64)) as [->|H64]; [by right |].
      exfalso. change (active_at (timeline msgs) 80) with
        (<[60 := 10]> (<[64 := 0]> (∅ : gmap Z Z))) in Hq.
      rewrite !lookup_insert_ne, lookup_empty in Hq by done. done.
Defined.

(** ** Notes that fall between two samples *)

(** Where an entry of the dictionary comes from: it was there before, or
    a note_on event of that pitch, at that time, wrote it. *)
Lemma active_entry_origin (events : list (Z * Message)) :
  forall (A : gmap Z Z) (p s : Z),
    foldl apply_event A events !! p = Some s ->
    A !! p = Some s \/
    exists msg, (s, msg) ∈ events /\ type msg = note_on /\ 0 < velocity msg /\ note msg = p.
Proof.
  induction events as [|[t msg] events IH]; intros A p s Hp; [by left |].
  cbn [foldl] in Hp. destruct (IH _ _ _ Hp) as [Hhere | (msg' & Hin & ?)].
  - unfold apply_event in Hhere.
    destruct (type msg) eqn:Htype.
    + destruct (Z.ltb_spec 0 (velocity msg)) as [Hvel|Hvel].
      * destruct (decide (note msg = p)) as [Heq|Hne].
        -- rewrite Heq, lookup_insert_eq in Hhere. injection Hhere as ->.
           right. exists msg. split; [left | done].
        -- rewrite lookup_insert_ne in Hhere by done. by left.
      * apply lookup_delete_Some in Hhere as [_ Hhere]. by left.
    + apply lookup_delete_Some in Hhere as [_ Hhere]. by left.
    + by left.
  - right. exists msg'. split; [by right | done].
Qed.

Lemma apply_closing_event (A : gmap Z Z) (t : Z) (msg : Message) :
  closes msg -> apply_event A (t, msg) !! note msg = None.
Proof.
  intros [Hoff | [Hon Hvel]]; unfold apply_event.
  - rewrite Hoff. apply lookup_delete_eq.
  - rewrite Hon. destruct (Z.ltb_spec 0 (velocity msg)); [lia |].
    apply lookup_delete_eq.
Qed.

(** A sample time that is not inside [[on_time, off_time)] never sees
    the entry written at [on_time] for a pitch closed at [off_time]. *)
Lemma closed_before_sample (events : list (Z * Message)) (j : nat)
    (on_time off_time t : Z) (m_off : Message) :
  StronglySorted by_time events ->
  events !! j = Some (off_time, m_off) -> closes m_off ->
  on_time < off_time -> (on_time <= t -> off_time <= t) ->
  active_at events t !! note m_off <> Some on_time.
Proof.
  intros Hsorted Hj Hclose Hlt Hgap Hactive. unfold active_at in Hactive.
  destruct (Z.le_gt_cases on_time t) as [Hon | Hbefore].
  - specialize (Hgap Hon).
    rewrite <- (take_drop_middle events j _ Hj) in Hactive, Hsorted.
    apply StronglySorted_app in Hsorted as (Hcross & _ & Hpost).
    apply StronglySorted_cons in Hpost as [Hpost _].
    rewrite filter_app, (filter_cons_True (fun ev => fst ev <= t)) in Hactive by done.
    rewrite foldl_app in Hactive. cbn [foldl] in Hactive.
    apply active_entry_origin in Hactive as [Hhere | (msg & Hin & _)].
    + by rewrite apply_closing_event in Hhere.
    + apply list_elem_of_filter in Hin as [_ Hin].
      rewrite Forall_forall in Hpost. apply Hpost in Hin.
      unfold by_time in Hin. simpl in Hin. lia.
  - apply active_entry_origin in Hactive as [Hhere | (msg & Hin & _)]; [done |].
    apply list_elem_of_filter in Hin as [Hin _]. simpl in Hin. lia.
Qed.

Lemma sorted_last_is_latest (events : list (Z * Message)) (j : nat)
    (ev ev_last : Z * Message) :
  StronglySorted by_time events ->
  events !! j = Some ev -> last events = Some ev_last -> fst ev <= fst ev_last.
Proof.
  intros Hsorted Hj Hlast.
  rewrite <- (take_drop_middle events j _ Hj) in Hsorted, Hlast.
  apply StronglySorted_app in Hsorted as (_ & _ & Hpost).
  apply StronglySorted_cons in Hpost as [Hpost _].
  rewrite last_app in Hlast. cbn [last] in Hlast.
  destruct (drop (S j) events) as [|y rest] eqn:Hdrop.
  - cbn in Hlast. injection Hlast as <-. lia.
  - assert (Hin : ev_last ∈ y :: rest).
    { rewrite last_cons_cons in Hlast.
      destruct (last (y :: rest)) as [z|] eqn:Hz; [| by apply last_None in Hz].
      injection Hlast as ->.
      apply last_Some in Hz as [l' ->]. apply elem_of_app. right. left. }
    rewrite Forall_forall in Hpost. by apply Hpost in Hin.
Qed.

(** With a positive step, the samples are the multiples of the step, and
    the last one is at or after the final time. *)
Lemma range_positive_step (final_time step : Z) :
  0 <= final_time -> 0 < step ->
  exists ts,
    Py.range 0 (final_time + step) step = inr ts /\
    (forall (n : nat) (t : Z), ts !! n = Some t -> t = Z.of_nat n * step) /\
    exists (n : nat) (t : Z), ts !! n = Some t /\ final_time <= t.
Proof.
  intros Hfinal Hstep. unfold Py.range, Py.range_length.
  destruct (Z.eqb_spec step 0) as [|_]; [lia |].
  destruct (Z.ltb_spec 0 step); [| lia].
  destruct (Z.ltb_spec 0 (final_time + step)); [| lia].
  eexists. split; [reflexivity |].
  set (q := (final_time + step - 1 - 0) / step).
  assert (Hq : 0 <= q /\ final_time <= q * step).
  { pose proof (Z.div_mod (final_time + step - 1 - 0) step ltac:(lia)).
    pose proof (Z.mod_pos_bound (final_time + step - 1 - 0) step Hstep).
    fold q in H1. nia. }
  split.
  - intros n t Hn. rewrite list_lookup_fmap in Hn.
    destruct (seq 0 (Z.to_nat (1 + q)) !! n) as [k|] eqn:Hk; [| done].
    apply lookup_seq in Hk as [-> _]. simpl in Hn. injection Hn as <-. lia.
  - exists (Z.to_nat q), (q * step). split; [| lia].
    rewrite list_lookup_fmap, lookup_seq_lt by lia. simpl. f_equal. lia.
Qed.

(** C10: on a track with non-negative delta times and a positive step
    size, take a note switched on at [on_time] and off at
    [off_time > on_time] with no multiple of the step size in
    [[on_time, off_time)].  Every sample step comes before both events
    or after both, some sample step comes after both, and at no sample
    step does the active-note dictionary, from which the token of the
    step is chosen, hold the entry of that note.  When no other note_on
    of the track has its pitch, the pitch is in no token of the grid. *)
Theorem note_between_samples_is_dropped (msgs : list Message)
    (ticks_per_beat subdivision : Z) (i j : nat) (on_time off_time : Z)
    (m_on m_off : Message) :
  Forall (fun msg => 0 <= time msg) msgs ->
  subdivision <> 0 -> 0 < ticks_per_beat / subdivision ->
  timeline msgs !! i = Some (on_time, m_on) ->
  type m_on = note_on -> 0 < velocity m_on ->
  timeline msgs !! j = Some (off_time, m_off) ->
  closes m_off -> note m_off = note m_on ->
  on_time < off_time ->
  (forall k : Z, ~ (on_time <= k * (ticks_per_beat / subdivision) < off_time)) ->
  exists (ts : list Z) (tokens : list token),
    Py.range 0 (final_time_of (timeline msgs) + ticks_per_beat / subdivision)
      (ticks_per_beat / subdivision) = inr ts /\
    extract_tokens_with_granularity msgs ticks_per_beat subdivision = inr tokens /\
    (forall (n : nat) (t : Z),
       ts !! n = Some t ->
       (on_time <= t <-> off_time <= t) /\
       active_at (timeline msgs) t !! note m_on <> Some on_time /\
       exists tok, tokens !! n = Some tok /\
                   current_token (active_at (timeline msgs) t) = inr tok) /\
    (exists (n : nat) (t : Z), ts !! n = Some t /\ off_time <= t) /\
    ((forall (i' : nat) (t' : Z) (m' : Message),
        timeline msgs !! i' = Some (t', m') ->
        type m' = note_on -> 0 < velocity m' -> note m' = note m_on -> i' = i) ->
     Some (note m_on) ∉ tokens).
Proof.
  intros Hmsgs Hs Hstep Hi Hon Hvel Hj Hclose Hnote Hlt Hgap.
  set (step_size := ticks_per_beat / subdivision) in *.
  set (events := timeline msgs) in *.
  pose proof (final_time_nonneg msgs Hmsgs) as Hfinal. fold events in Hfinal.
  destruct (range_positive_step _ _ Hfinal Hstep)
    as (ts & Hrange & Hmult & (n_last & t_last & Hn_last & Ht_last)).
  destruct (sample_loop_total ts events ∅) as (tokens & Hrun & Hlen).
  assert (Hsorted : StronglySorted by_time events) by (by apply timeline_from_sorted).
  assert (Hts : StronglySorted Z.le ts) by (by eapply range_sorted).
  assert (Hsample : forall (n : nat) (t : Z),
             ts !! n = Some t ->
             (on_time <= t <-> off_time <= t) /\
             active_at events t !! note m_on <> Some on_time /\
             exists tok, tokens !! n = Some tok /\
                         current_token (active_at events t) = inr tok).
  { intros n t Hn. pose proof (Hmult n t Hn) as ->.
    pose proof (Hgap (Z.of_nat n)) as Hgap_n.
    split; [lia |]. split.
    - rewrite <- Hnote. eapply closed_before_sample; try done. lia.
    - exact (sample_loop_sorted ts events ∅ tokens Hsorted Hts Hrun n _ Hn). }
  exists ts, tokens. split; [done |]. split.
  { unfold extract_tokens_with_granularity. floordiv_defined.
    fold step_size events. by rewrite Hrange. }
  split; [exact Hsample |]. split.
  { exists n_last, t_last. split; [done |].
    unfold final_time_of in Ht_last.
    destruct (last events) as [ev_last|] eqn:Hlast.
    - pose proof (sorted_last_is_latest events j _ _ Hsorted Hj Hlast) as Hle.
      simpl in Hle. lia.
    - apply last_None in Hlast. by rewrite Hlast in Hj. }
  intros Huniq Hin. apply list_elem_of_lookup in Hin as [n Hn].
  destruct (lookup_lt_is_Some_2 ts n) as [t Ht].
  { rewrite <- Hlen. by eapply lookup_lt_Some. }
  destruct (Hsample n t Ht) as (_ & Hnot & tok & Htok & Hcur).
  rewrite Hn in Htok. injection Htok as <-.
  destruct (current_token_spec (active_at events t))
    as [[_ Hrest] | (_ & p & Hp & [s Hentry] & _)];
    rewrite Hcur in *; [done |].
  injection Hp as <-.
  pose proof Hentry as Horigin. unfold active_at in Horigin.
  apply active_entry_origin in Horigin as [Hempty | (msg & Hmsg & Htype & Hv & Hpitch)];
    [done |].
  apply list_elem_of_filter in Hmsg as [_ Hmsg].
  apply list_elem_of_lookup in Hmsg as [i' Hi'].
  pose proof (Huniq i' s msg Hi' Htype Hv Hpitch) as ->.
  rewrite Hi in Hi'. injection Hi' as <- <-. done.
Qed.

Lemma note_between_samples_is_dropped_witness :
  let msgs := [mkMessage note_on 60 64 10; mkMessage note_off 60 0 40] in
  timeline msgs = [(10, mkMessage note_on 60 64 10); (50, mkMessage note_off 60 0 40)] /\
  exists tokens,
    extract_tokens_with_granularity msgs 480 6 = inr tokens /\
    Some 60 ∉ tokens.
Proof.
  intros msgs. split; [reflexivity |].
  destruct (note_between_samples_is_dropped msgs 480 6 0 1 10 50
              (mkMessage note_on 60 64 10) (mkMessage note_off 60 0 40))
    as (ts & tokens & _ & Hrun & _ & _ & Hdropped).
  - repeat constructor; simpl; lia.
  - lia.
  - reflexivity.
  - reflexivity.
  - reflexivity.
  - reflexivity.
  - reflexivity.
  - by left.
  - reflexivity.
  - lia.
  - change (480 / 6) with 80. lia.
  - exists tokens. split; [exact Hrun |]. apply Hdropped.
    intros [|[|i']] t' m' Hlook Htype _ _; [reflexivity | | done].
    injection Hlook as _ <-. discriminate Htype.
Defined.

(** ** Quantizing a synthesized track *)

Lemma current_token_matches (prev : token) (A : gmap Z Z) :
  active_matches prev A -> current_token A = inr prev.
Proof.
  destruct prev as [p|]; simpl.
  - intros [s ->].
    destruct (current_token_spec ({[p := s]} : gmap Z Z))
      as [[Hempty _] | (_ & q & -> & [s' Hq] & _)].
    + by apply (map_non_empty_singleton p s) in Hempty.
    + apply lookup_singleton_Some in Hq as [-> _]. done.
  - intros ->. reflexivity.
Qed.

Lemma timeline_from_app (l1 l2 : list Message) (c : Z) :
  timeline_from c (l1 ++ l2)
  = timeline_from c l1 ++ timeline_from (c + track_length l1) l2.
Proof.
  revert c. induction l1 as [|m l1 IH]; intros c; simpl.
  - by rewrite Z.add_0_r.
  - rewrite IH. do 3 f_equal. lia.
Qed.

Lemma drain_all_later (t : Z) (events : list (Z * Message)) (A : gmap Z Z) :
  Forall (fun ev => t < fst ev) events -> drain t events A = (events, A).
Proof.
  intros Hall. destruct Hall as [|ev rest Hev _]; [done |]. cbn [drain].
  destruct (Z.leb_spec (fst ev) t); [lia | done].
Qed.

(** The step at which the token changes from [prev] to [tok]: the loop
    consumes the messages of the transition and is left with the
    dictionary of [tok]. *)
Lemma drain_transition (t cur : Z) (prev tok : token) (A : gmap Z Z)
    (later : list (Z * Message)) :
  tok <> prev -> active_matches prev A ->
  Forall (fun ev => t < fst ev) later ->
  exists A',
    drain t (timeline_from cur
               (imap (written_message (t - cur)) (transition_events prev tok)) ++ later) A
    = (later, A') /\ active_matches tok A'.
Proof.
  intros Hne HA Hlater.
  assert (Ht : (cur + (t - cur) <=? t) = true) by (apply Z.leb_le; lia).
  assert (Ht0 : (cur + (t - cur) + 0 <=? t) = true) by (apply Z.leb_le; lia).
  destruct prev as [p|], tok as [n|]; simpl in HA; try done.
  - destruct HA as [s ->]. exists {[n := cur + (t - cur) + 0]}.
    simpl. rewrite Ht, Ht0, drain_all_later by done.
    split; [| by eexists]. by rewrite delete_singleton_eq, insert_empty.
  - destruct HA as [s ->]. exists ∅.
    simpl. rewrite Ht, drain_all_later by done.
    by rewrite delete_singleton_eq.
  - subst A. exists {[n := cur + (t - cur)]}.
    simpl. rewrite Ht, drain_all_later by done.
    split; [| by eexists]. by rewrite insert_empty.
Qed.

(** [resampled] in closed form: nothing when no message is left, and
    otherwise the tokens up to the last pitch and then one rest. *)
Lemma resampled_strip (tokens : list token) :
  forall prev,
    resampled prev tokens
    = if decide (prev = None /\ strip_trailing_rests tokens = []) then []
      else strip_trailing_rests tokens ++ [None].
Proof.
  induction tokens as [|tok rest IH]; intros prev.
  - cbn [resampled strip_trailing_rests].
    destruct prev as [p|]; case_decide as Hd; try done.
    + by destruct Hd.
    + by destruct Hd.
  - cbn [resampled strip_trailing_rests]. rewrite !IH.
    destruct (strip_trailing_rests rest) as [|y kept];
      destruct (decide (tok = prev)) as [->|Hne];
      destruct prev as [p|]; try destruct tok as [n|];
      repeat case_decide; simpl; first [done | (exfalso; intuition congruence)].
Qed.

Lemma synth_msgs_nothing (step_size : Z) (tokens : list token) :
  strip_trailing_rests tokens = [] ->
  forall i cur, synth_msgs step_size i cur None tokens = [].
Proof.
  induction tokens as [|tok rest IH]; intros Hstrip i cur; [done |].
  cbn [strip_trailing_rests] in Hstrip.
  destruct tok as [n|]; [done |].
  destruct (strip_trailing_rests rest) as [|y kept]; [| done].
  cbn [synth_msgs]. destruct (decide (@None Z = None)); [| done]. by apply IH.
Qed.

Lemma final_time_track_length (msgs : list Message) :
  msgs <> [] ->
  forall c, final_time_of (timeline_from c msgs) = c + track_length msgs.
Proof.
  induction msgs as [|m rest IH]; intros Hne c; [done |].
  destruct rest as [|m' rest].
  - unfold final_time_of. simpl. lia.
  - specialize (IH ltac:(done) (c + time m)).
    unfold final_time_of in *. cbn [timeline_from] in *.
    rewrite last_cons_cons. cbn [track_length foldr] in *. lia.
Qed.

(** From here on the step size is positive, as it is for every
    resolution with [0 < subdivision <= ticks_per_beat]. *)
Section Resampling.

Variable step_size : Z.
Hypothesis step_positive : 0 < step_size.

(** Every message still to come at index [i] is at or after tick
    [i * step_size]. *)
Lemma synth_msgs_not_before (tokens : list token) :
  forall (i cur : Z) (prev : token),
    Forall (fun ev => i * step_size <= fst ev)
           (timeline_from cur (synth_msgs step_size i cur prev tokens)).
Proof.
  induction tokens as [|tok rest IH]; intros i cur prev.
  - destruct prev as [p|]; simpl; repeat constructor. simpl. lia.
  - cbn [synth_msgs]. destruct (decide (tok = prev)) as [->|Hne].
    + eapply Forall_impl; [apply (IH (i + 1)) |]. intros ev Hev. simpl in *. lia.
    + rewrite timeline_from_app, track_length_transition by done.
      apply Forall_app. split.
      * destruct prev as [p|], tok as [n|]; simpl; repeat constructor; simpl; lia.
      * replace (cur + (i * step_size - cur)) with (i * step_size) by lia.
        eapply Forall_impl; [apply (IH (i + 1)) |]. intros ev Hev. simpl in *. lia.
Qed.

(** In particular the messages of the next index come after the sample
    of this one. *)
Lemma synth_msgs_after_sample (tokens : list token) (s : nat) (cur : Z) (prev : token) :
  Forall (fun ev => Z.of_nat s * step_size < fst ev)
         (timeline_from cur (synth_msgs step_size (Z.of_nat s + 1) cur prev tokens)).
Proof.
  eapply Forall_impl; [apply synth_msgs_not_before |].
  intros ev Hev. simpl in *. lia.
Qed.

(** Sampling the synthesized messages step by step, in lockstep with the
    synthesizer. *)
Lemma sample_synth_msgs (tokens : list token) :
  forall (s : nat) (cur : Z) (prev : token) (A : gmap Z Z),
    active_matches prev A ->
    sample_loop
      (map (fun k : nat => Z.of_nat k * step_size)
           (seq s (length (resampled prev tokens))))
      (timeline_from cur (synth_msgs step_size (Z.of_nat s) cur prev tokens)) A
    = inr (resampled prev tokens).
Proof.
  induction tokens as [|tok rest IH]; intros s cur prev A HA.
  - destruct prev as [p|]; [| reflexivity].
    destruct HA as [s0 ->]. simpl.
    assert (Ht : (cur + (Z.of_nat s * step_size - cur) <=? Z.of_nat s * step_size) = true)
      by (apply Z.leb_le; lia).
    rewrite Ht, delete_singleton_eq.
    by rewrite (current_token_matches None ∅).
  - assert (Hnext : Z.of_nat s + 1 = Z.of_nat (S s)) by lia.
    cbn [synth_msgs resampled]. destruct (decide (tok = prev)) as [->|Hne].
    + specialize (IH (S s) cur prev A HA).
      destruct (resampled prev rest) as [|r0 r] eqn:Hr; [reflexivity |].
      rewrite <- Hr in *. cbn [length seq map sample_loop].
      rewrite drain_all_later by apply synth_msgs_after_sample.
      rewrite (current_token_matches prev A HA). cbn [Py.bind].
      rewrite Hnext, IH. reflexivity.
    + cbn [length seq map sample_loop].
      rewrite timeline_from_app, track_length_transition by done.
      replace (cur + (Z.of_nat s * step_size - cur)) with (Z.of_nat s * step_size) by lia.
      destruct (drain_transition (Z.of_nat s * step_size) cur prev tok A
                  (timeline_from (Z.of_nat s * step_size)
                     (synth_msgs step_size (Z.of_nat s + 1)
                        (Z.of_nat s * step_size) tok rest)) Hne HA)
        as (A' & -> & HA'); [apply synth_msgs_after_sample |].
      rewrite (current_token_matches tok A' HA'). cbn [Py.bind].
      rewrite Hnext, (IH (S s) _ tok A' HA'). reflexivity.
Qed.

Lemma range_grid (n : nat) :
  Py.range 0 (Z.of_nat n * step_size + step_size) step_size
  = inr (map (fun k : nat => Z.of_nat k * step_size) (seq 0 (S n))).
Proof.
  unfold Py.range, Py.range_length.
  destruct (Z.eqb_spec step_size 0) as [|_]; [lia |].
  destruct (Z.ltb_spec 0 step_size); [| lia].
  destruct (Z.ltb_spec 0 (Z.of_nat n * step_size + step_size)); [| nia].
  assert (Hq : (Z.of_nat n * step_size + step_size - 1 - 0) / step_size = Z.of_nat n).
  { symmetry. apply Z.div_unique with (r := step_size - 1); lia. }
  rewrite Hq. replace (Z.to_nat (1 + Z.of_nat n)) with (S n) by lia.
  reflexivity.
Qed.

(** Quantizing what the synthesizer wrote: the grid up to its last
    pitch, then one rest. *)
Lemma quantize_synthesized (body : list token) (k : nat) :
  last body <> Some None ->
  let msgs := synth_msgs step_size 0 0 None (body ++ replicate k None) in
  exists ts,
    Py.range 0 (final_time_of (timeline msgs) + step_size) step_size = inr ts /\
    sample_loop ts (timeline msgs) ∅ = inr (body ++ [None]).
Proof.
  intros Hlast msgs.
  pose proof (strip_body_rests body k Hlast) as Hstrip.
  destruct (decide (body = [])) as [Hnil|Hbody].
  - exists [0]. unfold msgs. rewrite synth_msgs_nothing by (by rewrite Hstrip).
    subst body. split; [apply range_singleton; lia | reflexivity].
  - assert (Hlen : track_length msgs = Z.of_nat (length body) * step_size).
    { pose proof (track_length_synth_msgs step_size (body ++ replicate k None) 0 0 None) as H.
      fold msgs in H. rewrite Hstrip in H.
      case_decide as Hd; [by destruct Hd | lia]. }
    assert (Hmsgs : msgs <> []).
    { intros Hnil. rewrite Hnil in Hlen. destruct body; [done |].
      simpl in Hlen. nia. }
    unfold timeline. rewrite (final_time_track_length msgs Hmsgs 0), Hlen, Z.add_0_l.
    eexists. split; [by apply range_grid |].
    pose proof (sample_synth_msgs (body ++ replicate k None)
                  0%nat 0 None ∅ eq_refl) as Hrun.
    rewrite resampled_strip, Hstrip in Hrun.
    case_decide as Hd; [by destruct Hd |].
    rewrite length_app, Nat.add_1_r in Hrun. exact Hrun.
Qed.

End Resampling.

(** C1, as the specification words it, fails: quantization samples one
    more step after the last message, and the synthesizer writes nothing
    for trailing rests, so a grid comes back with exactly one trailing
    rest. *)
Lemma round_trip_changes_trailing_rests :
  (exists msgs,
     generate_midi_from_tokens [Some 60] 480 6 = inr msgs /\
     extract_tokens_with_granularity msgs 480 6 = inr [Some 60; None] /\
     extract_tokens_with_granularity msgs 480 6 <> inr [Some 60]) /\
  (exists msgs,
     generate_midi_from_tokens [Some 60; None; None] 480 6 = inr msgs /\
     extract_tokens_with_granularity msgs 480 6 = inr [Some 60; None] /\
     extract_tokens_with_granularity msgs 480 6 <> inr [Some 60; None; None]) /\
  (exists msgs,
     generate_midi_from_tokens [] 480 6 = inr msgs /\
     extract_tokens_with_granularity msgs 480 6 = inr [None] /\
     extract_tokens_with_granularity msgs 480 6 <> inr []).
Proof.
  split; [| split]; eexists; (split; [reflexivity |]);
    (split; [reflexivity | discriminate]).
Qed.

(** C1 (amended): for a grid whose pitches lie in 0..127 and a positive
    subdivision that evenly divides positive ticks per beat, quantizing
    the synthesized track of the grid returns the grid up to and
    including its last pitch followed by exactly one rest.  The grid
    comes back unchanged at every index up to the last pitch, and as a
    whole exactly when it has one trailing rest. *)
Theorem round_trip_up_to_trailing_rests (body : list token) (k : nat)
    (ticks_per_beat subdivision : Z) :
  0 < subdivision -> 0 < ticks_per_beat -> ticks_per_beat mod subdivision = 0 ->
  Forall pitch_in_range body -> last body <> Some None ->
  let tokens := body ++ replicate k None in
  exists msgs,
    generate_midi_from_tokens tokens ticks_per_beat subdivision = inr msgs /\
    extract_tokens_with_granularity msgs ticks_per_beat subdivision
    = inr (body ++ [None]) /\
    (forall i : nat, (i < length body)%nat -> (body ++ [None]) !! i = tokens !! i) /\
    (extract_tokens_with_granularity msgs ticks_per_beat subdivision = inr tokens
     <-> k = 1%nat).
Proof.
  intros Hsub Htpb Hdiv Hok Hlast tokens.
  assert (Hstep : 0 < ticks_per_beat / subdivision).
  { pose proof (Z.div_mod ticks_per_beat subdivision ltac:(lia)). nia. }
  exists (synth_msgs (ticks_per_beat / subdivision) 0 0 None tokens).
  split; [apply generate_unfold; [lia | lia | by apply pitch_in_range_rests] |].
  assert (Hrun : extract_tokens_with_granularity
                   (synth_msgs (ticks_per_beat / subdivision) 0 0 None tokens)
                   ticks_per_beat subdivision = inr (body ++ [None])).
  { destruct (quantize_synthesized _ Hstep body k Hlast) as (ts & Hrange & Hrun).
    unfold extract_tokens_with_granularity. floordiv_defined.
    fold tokens in Hrange, Hrun. by rewrite Hrange. }
  split; [exact Hrun |]. split.
  - intros i Hi. unfold tokens. by rewrite !lookup_app_l.
  - rewrite Hrun. unfold tokens. split.
    + intros [= Heq]. apply app_inv_head in Heq.
      by destruct k as [|[|k]].
    + by intros ->.
Qed.

Lemma round_trip_up_to_trailing_rests_witness :
  exists msgs,
    generate_midi_from_tokens ([Some 60; None; Some 62] ++ replicate 2 None) 480 6
    = inr msgs /\
    extract_tokens_with_granularity msgs 480 6 = inr ([Some 60; None; Some 62] ++ [None]).
Proof.
  destruct (round_trip_up_to_trailing_rests [Some 60; None; Some 62] 2 480 6)
    as (msgs & Hgen & Hrun & _).
  - lia.
  - lia.
  - reflexivity.
  - apply forallb_token_ok. reflexivity.
  - discriminate.
  - exists msgs. split; [exact Hgen | exact Hrun].
Defined.

(** * Further properties of the synthesizer *)

Lemma synth_msgs_only_rests (step_size : Z) (k : nat) :
  forall (i cur : Z) (prev : token),
    synth_msgs step_size i cur prev (replicate k None)
    = synth_msgs step_size i cur prev [].
Proof.
  induction k as [|k IH]; intros i cur prev; [done |].
  cbn [replicate synth_msgs]. destruct (decide (None = prev)) as [<-|Hne].
  - by rewrite IH.
  - destruct prev as [p|]; [| done]. by rewrite IH.
Qed.

Lemma synth_msgs_trailing_rests (step_size : Z) (tokens : list token) (k : nat) :
  forall (i cur : Z) (prev : token),
    synth_msgs step_size i cur prev (tokens ++ replicate k None)
    = synth_msgs step_size i cur prev tokens.
Proof.
  induction tokens as [|tok rest IH]; intros i cur prev.
  - apply synth_msgs_only_rests.
  - cbn [app synth_msgs]. by rewrite !IH.
Qed.

(** X1: rests at the end of a grid leave no trace in the track: a grid
    and the same grid with any number of rests appended are synthesized
    to the same result. *)
Theorem trailing_rests_are_not_synthesized (tokens : list token) (k : nat)
    (ticks_per_beat subdivision : Z) :
  generate_midi_from_tokens (tokens ++ replicate k None) ticks_per_beat subdivision
  = generate_midi_from_tokens tokens ticks_per_beat subdivision.
Proof.
  rewrite !generate_spec, synth_msgs_trailing_rests, forallb_app.
  assert (Hrests : forallb token_ok (replicate k (@None Z)) = true).
  { apply forallb_forall. intros tok Hin.
    apply list_elem_of_In, elem_of_replicate in Hin as [-> _]. done. }
  by rewrite Hrests, andb_true_r.
Qed.

Lemma synth_msgs_leading_rests (step_size : Z) (a : nat) (tokens : list token) :
  forall (i cur : Z),
    synth_msgs step_size i cur None (replicate a None ++ tokens)
    = synth_msgs step_size (i + Z.of_nat a) cur None tokens.
Proof.
  induction a as [|a IH]; intros i cur.
  - simpl. f_equal. lia.
  - cbn [replicate app synth_msgs]. destruct (decide (@None Z = None)); [| done].
    rewrite IH. f_equal. lia.
Qed.

Lemma synth_msgs_sustain (step_size : Z) (p : Z) (n : nat) :
  forall (i cur : Z),
    synth_msgs step_size i cur (Some p) (replicate n (Some p))
    = [mkMessage note_off p 0 ((i + Z.of_nat n) * step_size - cur)].
Proof.
  induction n as [|n IH]; intros i cur.
  - simpl. do 3 f_equal. lia.
  - cbn [replicate synth_msgs]. destruct (decide (Some p = Some p)); [| done].
    rewrite IH. do 3 f_equal. lia.
Qed.

(** X2: at a step size that is not negative, a pitch in 0..127 held for
    [n > 0] steps after [a] rests is synthesized, whatever rests follow,
    as exactly two messages: the note_on after [a] steps and the
    note_off [n] steps later.  A sustained token adds no message. *)
Theorem held_note_is_one_pair (a n b : nat) (p ticks_per_beat subdivision : Z) :
  subdivision <> 0 -> 0 <= ticks_per_beat / subdivision ->
  0 <= p <= 127 -> (0 < n)%nat ->
  let step_size := ticks_per_beat / subdivision in
  generate_midi_from_tokens
    (replicate a None ++ replicate n (Some p) ++ replicate b None)
    ticks_per_beat subdivision
  = inr [mkMessage note_on p 64 (Z.of_nat a * step_size);
         mkMessage note_off p 0 (Z.of_nat n * step_size)].
Proof.
  intros Hs Hstep Hp Hn step_size. rewrite generate_unfold; [| done | done |].
  2:{ apply Forall_app. split; [apply Forall_replicate; by intros q |].
      apply Forall_app. split; apply Forall_replicate; [by intros q [= <-] | by intros q]. }
  fold step_size.
  rewrite app_assoc, synth_msgs_trailing_rests, synth_msgs_leading_rests.
  destruct n as [|n]; [lia |]. cbn [replicate synth_msgs].
  destruct (decide (Some p = None)); [done |].
  rewrite synth_msgs_sustain.
  cbn [transition_events imap written_message app fst snd Nat.eqb].
  replace ((0 + Z.of_nat a) * step_size - 0) with (Z.of_nat a * step_size) by lia.
  replace ((0 + Z.of_nat a + 1 + Z.of_nat n) * step_size - (0 + Z.of_nat a) * step_size)
    with (Z.of_nat (S n) * step_size) by lia.
  reflexivity.
Qed.

Lemma held_note_is_one_pair_witness :
  generate_midi_from_tokens
    (replicate 2 None ++ replicate 3 (Some 60) ++ replicate 1 None) 480 6
  = inr [mkMessage note_on 60 64 (Z.of_nat 2 * (480 / 6));
         mkMessage note_off 60 0 (Z.of_nat 3 * (480 / 6))].
Proof.
  apply (held_note_is_one_pair 2 3 1 60 480 6); [lia | | lia | lia].
  vm_compute. discriminate.
Defined.

(** X3: no track that the synthesizer returns has a message with a
    negative delta time, so its events are in temporal order: it is a
    well-formed input of the quantizer.  A track is returned for every
    grid whose pitches lie in 0..127 when the subdivision is not zero
    and the step size is not negative. *)
Theorem synthesized_track_is_well_timed (tokens : list token)
    (ticks_per_beat subdivision : Z) :
  (forall msgs,
     generate_midi_from_tokens tokens ticks_per_beat subdivision = inr msgs ->
     Forall (fun msg => 0 <= time msg) msgs /\
     StronglySorted by_time (timeline msgs) /\
     0 <= final_time_of (timeline msgs)) /\
  (subdivision <> 0 -> 0 <= ticks_per_beat / subdivision ->
   Forall pitch_in_range tokens ->
   exists msgs, generate_midi_from_tokens tokens ticks_per_beat subdivision = inr msgs).
Proof.
  split; [| intros Hs Hstep Hok; eexists; by apply generate_unfold].
  intros msgs Hgen. destruct (generate_returns _ _ _ _ Hgen) as (_ & _ & _ & Hmsgs).
  split; [exact Hmsgs |]. split.
  - by apply timeline_from_sorted.
  - by apply final_time_nonneg.
Qed.

Lemma synthesized_track_is_well_timed_witness :
  exists msgs,
    generate_midi_from_tokens [Some 60; None; Some 62; Some 64] 480 7 = inr msgs /\
    Forall (fun msg => 0 <= time msg) msgs.
Proof.
  destruct (synthesized_track_is_well_timed [Some 60; None; Some 62; Some 64] 480 7)
    as [Htimed Hreturns].
  destruct Hreturns as [msgs Hgen].
  - lia.
  - vm_compute. discriminate.
  - apply forallb_token_ok. reflexivity.
  - exists msgs. split; [exact Hgen | by apply Htimed].
Defined.

Lemma synth_msgs_shape (step_size : Z) (tokens : list token) :
  forall (i cur : Z) (prev : token),
    Forall (fun msg =>
              (type msg = note_on /\ velocity msg = 64 \/
               type msg = note_off /\ velocity msg = 0) /\
              (Some (note msg) ∈ tokens \/ Some (note msg) = prev))
           (synth_msgs step_size i cur prev tokens).
Proof.
  assert (Hoff : forall p delta (tokens : list token) (prev : token),
            Some p ∈ tokens \/ Some p = prev ->
            (type (mkMessage note_off p 0 delta) = note_on /\
             velocity (mkMessage note_off p 0 delta) = 64 \/
             type (mkMessage note_off p 0 delta) = note_off /\
             velocity (mkMessage note_off p 0 delta) = 0) /\
            (Some (note (mkMessage note_off p 0 delta)) ∈ tokens \/
             Some (note (mkMessage note_off p 0 delta)) = prev)).
  { intros. split; [by right | done]. }
  assert (Hon : forall p delta (tokens : list token) (prev : token),
            Some p ∈ tokens \/ Some p = prev ->
            (type (mkMessage note_on p 64 delta) = note_on /\
             velocity (mkMessage note_on p 64 delta) = 64 \/
             type (mkMessage note_on p 64 delta) = note_off /\
             velocity (mkMessage note_on p 64 delta) = 0) /\
            (Some (note (mkMessage note_on p 64 delta)) ∈ tokens \/
             Some (note (mkMessage note_on p 64 delta)) = prev)).
  { intros. split; [by left | done]. }
  induction tokens as [|tok rest IH]; intros i cur prev.
  - destruct prev as [p|]; simpl; [| constructor].
    constructor; [| constructor]. apply Hoff. by right.
  - cbn [synth_msgs]. destruct (decide (tok = prev)) as [->|Hne].
    + eapply Forall_impl; [apply IH |]. intros msg [Hkind Hpitch].
      split; [done |]. destruct Hpitch; [left; by right | by right].
    + apply Forall_app. split.
      * destruct prev as [p|], tok as [n|]; simpl; try done.
        -- constructor; [apply Hoff; by right |].
           constructor; [apply Hon; left; left | constructor].
        -- constructor; [apply Hoff; by right | constructor].
        -- constructor; [apply Hon; left; left | constructor].
      * eapply Forall_impl; [apply IH |]. intros msg [Hkind Hpitch].
        split; [done |]. left. destruct Hpitch as [Hin | ->]; [by right | by left].
Qed.

Lemma synth_msgs_length (step_size : Z) (tokens : list token) :
  forall (i cur : Z) (prev : token),
    length (synth_msgs step_size i cur prev tokens)
    = (2 * note_starts prev tokens + (if prev is Some _ then 1 else 0))%nat.
Proof.
  induction tokens as [|tok rest IH]; intros i cur prev.
  - by destruct prev.
  - cbn [synth_msgs note_starts]. destruct (decide (tok = prev)) as [->|Hne].
    + rewrite IH. lia.
    + rewrite length_app, IH.
      destruct prev as [p|], tok as [n|]; simpl; first [lia | done].
Qed.

Lemma note_starts_le (tokens : list token) :
  forall prev, (note_starts prev tokens <= length (omap id tokens))%nat.
Proof.
  induction tokens as [|tok rest IH]; intros prev; [done |].
  cbn [note_starts]. specialize (IH tok).
  destruct tok as [n|].
  - change (omap id (Some n :: rest)) with (n :: omap id rest).
    cbn [length]. case_decide; lia.
  - change (omap id (@None Z :: rest)) with (omap id rest).
    case_decide; lia.
Qed.

(** X4: for a grid whose pitches lie in 0..127, at a non-zero
    subdivision and a step size that is not negative, the synthesized
    track holds only note_on messages of velocity 64 and note_off
    messages of velocity 0, each on a pitch of the grid, and two
    messages for every place where the grid changes to a pitch: at most
    twice as many messages as the grid has pitch tokens. *)
Theorem synthesized_messages (tokens : list token) (ticks_per_beat subdivision : Z) :
  subdivision <> 0 -> 0 <= ticks_per_beat / subdivision ->
  Forall pitch_in_range tokens ->
  exists msgs,
    generate_midi_from_tokens tokens ticks_per_beat subdivision = inr msgs /\
    Forall (fun msg =>
              (type msg = note_on /\ velocity msg = 64 \/
               type msg = note_off /\ velocity msg = 0) /\
              Some (note msg) ∈ tokens) msgs /\
    length msgs = (2 * note_starts None tokens)%nat /\
    (length msgs <= 2 * length (omap id tokens))%nat.
Proof.
  intros Hs Hstep Hok. eexists. split; [by apply generate_unfold |]. split; [| split].
  - eapply Forall_impl; [apply synth_msgs_shape |].
    intros msg [Hkind [Hin | Hprev]]; done.
  - rewrite synth_msgs_length. lia.
  - rewrite synth_msgs_length. pose proof (note_starts_le tokens None). lia.
Qed.

Lemma synthesized_messages_witness :
  exists msgs,
    generate_midi_from_tokens [Some 60; Some 60; None; Some 62; Some 64] 480 6
    = inr msgs /\
    length msgs = 6%nat.
Proof.
  destruct (synthesized_messages [Some 60; Some 60; None; Some 62; Some 64] 480 6)
    as (msgs & Hgen & _ & Hlen & _).
  - lia.
  - vm_compute. discriminate.
  - apply forallb_token_ok. reflexivity.
  - exists msgs. split; [exact Hgen | exact Hlen].
Defined.

(** X5: at a positive step size the synthesized track of a grid whose
    pitches lie in 0..127 is recovered exactly from its own grid:
    quantizing the track and synthesizing the resulting grid gives the
    same messages again.  So the grid obtained by the first round trip
    is a fixed point of later round trips. *)
Theorem synthesized_track_round_trip (tokens : list token)
    (ticks_per_beat subdivision : Z) :
  subdivision <> 0 -> 0 < ticks_per_beat / subdivision ->
  Forall pitch_in_range tokens ->
  exists (msgs : list Message) (grid : list token),
    generate_midi_from_tokens tokens ticks_per_beat subdivision = inr msgs /\
    extract_tokens_with_granularity msgs ticks_per_beat subdivision = inr grid /\
    generate_midi_from_tokens grid ticks_per_beat subdivision = inr msgs.
Proof.
  intros Hs Hstep Hok.
  destruct (split_trailing_rests tokens) as (k & body & -> & Hbody).
  assert (Hlast : last body <> Some None).
  { destruct Hbody as [-> | [q ->]]; done. }
  assert (Hgrid : Forall pitch_in_range (body ++ [None])).
  { apply Forall_app in Hok as [Hok _]. by apply (pitch_in_range_rests body 1). }
  destruct (quantize_synthesized _ Hstep body k Hlast) as (ts & Hrange & Hrun).
  exists (synth_msgs (ticks_per_beat / subdivision) 0 0 None (body ++ replicate k None)),
         (body ++ [None]).
  split; [apply generate_unfold; [done | lia | done] |]. split.
  - unfold extract_tokens_with_granularity. floordiv_defined. by rewrite Hrange.
  - rewrite generate_unfold; [| done | lia | done]. f_equal.
    change [@None Z] with (replicate 1 (@None Z)).
    by rewrite !synth_msgs_trailing_rests.
Qed.

Lemma synthesized_track_round_trip_witness :
  exists (msgs : list Message) (grid : list token),
    generate_midi_from_tokens [None; Some 60; Some 62; None; None] 480 6 = inr msgs /\
    extract_tokens_with_granularity msgs 480 6 = inr grid /\
    generate_midi_from_tokens grid 480 6 = inr msgs.
Proof.
  apply (synthesized_track_round_trip [None; Some 60; Some 62; None; None] 480 6).
  - lia.
  - reflexivity.
  - apply forallb_token_ok. reflexivity.
Defined.

(** * Further properties of the quantizer *)

(** X6: on a track with non-negative delta times and a positive step
    size the grid has one token for every multiple of the step size from
    0 up to and including the first one at or after the final time; it
    is never empty. *)
Theorem grid_length (msgs : list Message) (ticks_per_beat subdivision : Z) :
  Forall (fun msg => 0 <= time msg) msgs ->
  subdivision <> 0 -> 0 < ticks_per_beat / subdivision ->
  let step_size := ticks_per_beat / subdivision in
  let final_time := final_time_of (timeline msgs) in
  exists tokens,
    extract_tokens_with_granularity msgs ticks_per_beat subdivision = inr tokens /\
    Z.of_nat (length tokens) = 1 + (final_time + step_size - 1) / step_size /\
    final_time <= (Z.of_nat (length tokens) - 1) * step_size < final_time + step_size /\
    tokens <> [].
Proof.
  intros Hmsgs Hs Hstep step_size final_time.
  pose proof (final_time_nonneg msgs Hmsgs) as Hfinal. fold final_time in Hfinal.
  unfold extract_tokens_with_granularity. floordiv_defined.
  fold step_size final_time. unfold Py.range, Py.range_length.
  destruct (Z.eqb_spec step_size 0) as [|_]; [lia |].
  destruct (Z.ltb_spec 0 step_size); [| lia].
  destruct (Z.ltb_spec 0 (final_time + step_size)); [| lia].
  cbn [Py.bind Py.ret].
  match goal with |- context [sample_loop ?ts ?ev ?A] =>
    destruct (sample_loop_total ts ev A) as (tokens & -> & Hlen) end.
  rewrite length_map, length_seq in Hlen.
  set (q := (final_time + step_size - 1 - 0) / step_size) in *.
  assert (Hq : 0 <= q /\ final_time <= q * step_size < final_time + step_size).
  { pose proof (Z.div_mod (final_time + step_size - 1 - 0) step_size ltac:(lia)) as Hdiv.
    pose proof (Z.mod_pos_bound (final_time + step_size - 1 - 0) step_size Hstep).
    fold q in Hdiv. nia. }
  exists tokens. split; [done |].
  replace (final_time + step_size - 1) with (final_time + step_size - 1 - 0) by lia.
  fold q. split; [lia |]. split; [| destruct tokens; [simpl in Hlen; lia | done]].
  replace (Z.of_nat (length tokens) - 1) with q by lia. lia.
Qed.

Lemma grid_length_witness :
  exists tokens,
    extract_tokens_with_granularity
      [mkMessage note_on 60 64 0; mkMessage note_off 60 0 170] 480 6 = inr tokens /\
    Z.of_nat (length tokens) = 4.
Proof.
  destruct (grid_length [mkMessage note_on 60 64 0; mkMessage note_off 60 0 170] 480 6)
    as (tokens & Hrun & Hlen & _).
  - repeat constructor; simpl; lia.
  - lia.
  - reflexivity.
  - exists tokens. split; [exact Hrun | exact Hlen].
Defined.

Lemma apply_event_effect (A : gmap Z Z) (ev : Z * Message) :
  apply_event A ev
  = match effect_of (snd ev) with
    | Starts p => <[p := fst ev]> A
    | Stops p => delete p A
    | NoEffect => A
    end.
Proof.
  destruct ev as [t msg]. unfold apply_event, effect_of. simpl.
  destruct (type msg); [| done | done]. by destruct (0 <? velocity msg).
Qed.

Lemma timeline_from_same (msgs1 msgs2 : list Message) :
  Forall2 (fun m1 m2 => time m1 = time m2 /\ effect_of m1 = effect_of m2) msgs1 msgs2 ->
  forall c, Forall2 same_event (timeline_from c msgs1) (timeline_from c msgs2).
Proof.
  induction 1 as [|m1 m2 msgs1 msgs2 [Htime Heff] _ IH]; intros c; simpl.
  - constructor.
  - rewrite Htime. constructor; [done | apply IH].
Qed.

Lemma final_time_same (events1 events2 : list (Z * Message)) :
  Forall2 same_event events1 events2 ->
  final_time_of events1 = final_time_of events2.
Proof.
  unfold final_time_of.
  induction 1 as [|ev1 ev2 events1 events2 [Htime _] Hrest IH]; [done |].
  destruct Hrest as [|ev1' ev2' events1 events2 Hev Hrest]; [done |].
  by rewrite !last_cons_cons.
Qed.

Lemma drain_same (t : Z) (events1 events2 : list (Z * Message)) :
  Forall2 same_event events1 events2 ->
  forall A, Forall2 same_event (drain t events1 A).1 (drain t events2 A).1 /\
            (drain t events1 A).2 = (drain t events2 A).2.
Proof.
  induction 1 as [|ev1 ev2 events1 events2 Hev Hrest IH]; intros A; [done |].
  cbn [drain]. destruct Hev as [Htime Heff].
  assert (Happly : apply_event A ev1 = apply_event A ev2).
  { by rewrite !apply_event_effect, Htime, Heff. }
  rewrite Htime, Happly. destruct (fst ev2 <=? t); [apply IH |].
  split; [| done]. by constructor.
Qed.

Lemma sample_loop_same (ts : list Z) :
  forall (events1 events2 : list (Z * Message)) (A : gmap Z Z),
    Forall2 same_event events1 events2 ->
    sample_loop ts events1 A = sample_loop ts events2 A.
Proof.
  induction ts as [|t ts IH]; intros events1 events2 A Hsame; [done |].
  cbn [sample_loop]. destruct (drain_same t _ _ Hsame A) as [Hrest HA].
  destruct (drain t events1 A) as [rest1 A1], (drain t events2 A) as [rest2 A2].
  simpl in *. subst A2. by rewrite (IH rest1 rest2 A1 Hrest).
Qed.

(** X7: the grid of a track depends only on the delta time of each
    message and on what the message does to the active notes: start a
    pitch, stop a pitch, or nothing.  A note_on of velocity 0 can be
    exchanged with a note_off, and a positive velocity with any other
    positive velocity, without changing the grid or the failure. *)
Theorem grid_depends_on_effects_only (msgs1 msgs2 : list Message)
    (ticks_per_beat subdivision : Z) :
  Forall2 (fun m1 m2 => time m1 = time m2 /\ effect_of m1 = effect_of m2) msgs1 msgs2 ->
  extract_tokens_with_granularity msgs1 ticks_per_beat subdivision
  = extract_tokens_with_granularity msgs2 ticks_per_beat subdivision.
Proof.
  intros Hsame. unfold extract_tokens_with_granularity.
  destruct (Py.floordiv ticks_per_beat subdivision) as [e|step_size]; [done |].
  cbn [Py.bind]. pose proof (timeline_from_same _ _ Hsame 0) as Hevents.
  fold (timeline msgs1) (timeline msgs2) in Hevents.
  rewrite (final_time_same _ _ Hevents).
  destruct (Py.range _ _ _) as [e|ts]; [done |].
  cbn [Py.bind]. by apply sample_loop_same.
Qed.

Lemma grid_depends_on_effects_only_witness :
  extract_tokens_with_granularity
    [mkMessage note_on 60 100 0; mkMessage note_on 60 0 160] 480 6
  = extract_tokens_with_granularity
      [mkMessage note_on 60 1 0; mkMessage note_off 60 64 160] 480 6.
Proof.
  apply grid_depends_on_effects_only.
  repeat constructor.
Defined.

Lemma drain_nothing_starts (t : Z) (events : list (Z * Message)) :
  Forall (fun ev => forall p, effect_of (snd ev) <> Starts p) events ->
  Forall (fun ev => forall p, effect_of (snd ev) <> Starts p) (drain t events ∅).1 /\
  (drain t events ∅).2 = ∅.
Proof.
  induction 1 as [|ev events Hev Hrest IH]; [done |].
  cbn [drain]. destruct (fst ev <=? t); [| split; [by constructor | done]].
  rewrite apply_event_effect.
  destruct (effect_of (snd ev)) as [p|p|] eqn:Heff.
  - by destruct (Hev p).
  - by rewrite delete_empty.
  - done.
Qed.

Lemma sample_loop_nothing_starts (ts : list Z) :
  forall (events : list (Z * Message)) (tokens : list token),
    Forall (fun ev => forall p, effect_of (snd ev) <> Starts p) events ->
    sample_loop ts events ∅ = inr tokens ->
    Forall (fun tok => tok = None) tokens.
Proof.
  induction ts as [|t ts IH]; intros events tokens Hev Hrun.
  - injection Hrun as <-. constructor.
  - cbn [sample_loop] in Hrun.
    destruct (drain_nothing_starts t events Hev) as [Hrest HA].
    destruct (drain t events ∅) as [rest A]. simpl in *. subst A.
    rewrite (current_token_matches None ∅) in Hrun by done. cbn [Py.bind] in Hrun.
    destruct (sample_loop ts rest ∅) as [e|toks] eqn:Htail; [done |].
    injection Hrun as <-. constructor; [done | by eapply IH].
Qed.

(** X8: a track in which no note_on has a positive velocity is
    quantized to rests only: a note_off for a pitch that is not sounding
    is ignored, not an error. *)
Theorem silent_track_gives_rests (msgs : list Message)
    (ticks_per_beat subdivision : Z) (tokens : list token) :
  Forall (fun msg => type msg = note_on -> velocity msg <= 0) msgs ->
  extract_tokens_with_granularity msgs ticks_per_beat subdivision = inr tokens ->
  Forall (fun tok => tok = None) tokens.
Proof.
  intros Hsilent. unfold extract_tokens_with_granularity.
  destruct (Py.floordiv ticks_per_beat subdivision) as [e|step_size]; [done |].
  cbn [Py.bind]. destruct (Py.range _ _ _) as [e|ts]; [done |].
  cbn [Py.bind]. apply sample_loop_nothing_starts.
  unfold timeline. generalize 0.
  induction Hsilent as [|msg msgs Hmsg _ IH]; intros c; simpl; constructor; [| apply IH].
  intros p. unfold effect_of. simpl. destruct (type msg); [| done | done].
  destruct (Z.ltb_spec 0 (velocity msg)); [| done]. specialize (Hmsg eq_refl). lia.
Qed.

Lemma silent_track_gives_rests_witness :
  Forall (fun tok => tok = None) [@None Z; None; None].
Proof.
  apply (silent_track_gives_rests
           [mkMessage note_off 60 0 100; mkMessage note_on 62 0 60] 480 6).
  - repeat constructor; simpl; (discriminate || lia).
  - reflexivity.
Defined.

Lemma stays_active (p : Z) (events : list (Z * Message)) :
  forall A : gmap Z Z,
    is_Some (A !! p) ->
    Forall (fun ev => effect_of (snd ev) <> Stops p) events ->
    is_Some (foldl apply_event A events !! p).
Proof.
  induction events as [|ev events IH]; intros A HA Hall; [done |].
  apply Forall_cons in Hall as [Hev Hall]. cbn [foldl]. apply IH; [| done].
  rewrite apply_event_effect. destruct (effect_of (snd ev)) as [q|q|]; [| | done].
  - destruct (decide (q = p)) as [->|Hne].
    + rewrite lookup_insert_eq. by eexists.
    + by rewrite lookup_insert_ne.
  - rewrite lookup_delete_ne; [done | congruence].
Qed.

(** Once a pitch is started and nothing later stops it, it is in the
    dictionary of every sample at or after its onset. *)
Lemma started_and_never_stopped (events : list (Z * Message)) (i : nat)
    (on_time p t : Z) (m_on : Message) :
  events !! i = Some (on_time, m_on) -> effect_of m_on = Starts p ->
  (forall (j : nat) (t' : Z) (m : Message),
     (i < j)%nat -> events !! j = Some (t', m) -> effect_of m <> Stops p) ->
  on_time <= t ->
  is_Some (active_at events t !! p).
Proof.
  intros Hi Hon Hnever Ht. unfold active_at.
  rewrite <- (take_drop_middle events i _ Hi).
  rewrite filter_app, (filter_cons_True (fun ev => fst ev <= t)) by done.
  rewrite foldl_app. cbn [foldl]. apply stays_active.
  - rewrite apply_event_effect. simpl. rewrite Hon, lookup_insert_eq. by eexists.
  - apply Forall_forall. intros [t' m] Hin.
    apply list_elem_of_filter in Hin as [_ Hin].
    apply list_elem_of_lookup in Hin as [k Hk]. rewrite lookup_drop in Hk.
    simpl. eapply (Hnever (S i + k)%nat); [lia | exact Hk].
Qed.

(** X9: on a track with non-negative delta times and a positive step
    size, a pitch that is switched on and never switched off afterwards
    sounds to the end of the grid: every token from its onset on is a
    pitch at least as high, and so is the last token of the grid. *)
Theorem unclosed_note_sounds_to_the_end (msgs : list Message)
    (ticks_per_beat subdivision : Z) (i : nat) (on_time p : Z) (m_on : Message) :
  Forall (fun msg => 0 <= time msg) msgs ->
  subdivision <> 0 -> 0 < ticks_per_beat / subdivision ->
  timeline msgs !! i = Some (on_time, m_on) ->
  effect_of m_on = Starts p ->
  (forall (j : nat) (t' : Z) (m : Message),
     (i < j)%nat -> timeline msgs !! j = Some (t', m) -> effect_of m <> Stops p) ->
  exists (ts : list Z) (tokens : list token),
    Py.range 0 (final_time_of (timeline msgs) + ticks_per_beat / subdivision)
      (ticks_per_beat / subdivision) = inr ts /\
    extract_tokens_with_granularity msgs ticks_per_beat subdivision = inr tokens /\
    (forall (n : nat) (t : Z),
       ts !! n = Some t -> on_time <= t ->
       exists q, tokens !! n = Some (Some q) /\ p <= q) /\
    exists q, last tokens = Some (Some q) /\ p <= q.
Proof.
  intros Hmsgs Hs Hstep Hi Hon Hnever.
  set (step_size := ticks_per_beat / subdivision) in *.
  set (events := timeline msgs) in *.
  pose proof (final_time_nonneg msgs Hmsgs) as Hfinal. fold events in Hfinal.
  destruct (range_positive_step _ _ Hfinal Hstep)
    as (ts & Hrange & Hmult & (n_last & t_last & Hn_last & Ht_last)).
  destruct (sample_loop_total ts events ∅) as (tokens & Hrun & Hlen).
  assert (Hsorted : StronglySorted by_time events) by (by apply timeline_from_sorted).
  assert (Hts : StronglySorted Z.le ts) by (by eapply range_sorted).
  assert (Hsample : forall (n : nat) (t : Z),
             ts !! n = Some t -> on_time <= t ->
             exists q, tokens !! n = Some (Some q) /\ p <= q).
  { intros n t Hn Ht.
    destruct (sample_loop_sorted ts events ∅ tokens Hsorted Hts Hrun n t Hn)
      as (tok & Hlook & Htok).
    fold (active_at events t) in Htok.
    pose proof (started_and_never_stopped events i on_time p t m_on Hi Hon Hnever Ht)
      as Hactive.
    destruct (current_token_spec (active_at events t))
      as [[Hempty _] | (_ & q & Hq & _ & Hmax)].
    - rewrite Hempty, lookup_empty in Hactive. by destruct Hactive.
    - rewrite Hq in Htok. injection Htok as <-. exists q. split; [done |].
      by apply Hmax. }
  exists ts, tokens. split; [done |]. split.
  { unfold extract_tokens_with_granularity. floordiv_defined.
    fold step_size events. by rewrite Hrange. }
  split; [exact Hsample |].
  assert (Hon_final : on_time <= final_time_of events).
  { unfold final_time_of. destruct (last events) as [ev_last|] eqn:Hlast.
    - exact (sorted_last_is_latest events i _ _ Hsorted Hi Hlast).
    - apply last_None in Hlast. by rewrite Hlast in Hi. }
  rewrite last_lookup.
  assert (Hn : (n_last < length ts)%nat) by (by eapply lookup_lt_Some).
  destruct (lookup_lt_is_Some_2 ts (pred (length ts))) as [t Ht]; [lia |].
  rewrite Hlen. apply (Hsample _ t Ht).
  rewrite (Hmult _ _ Ht), (Hmult _ _ Hn_last) in *. nia.
Qed.

Lemma unclosed_note_sounds_to_the_end_witness :
  exists tokens,
    extract_tokens_with_granularity
      [mkMessage note_on 60 64 100; mkMessage note_on 55 64 100;
       mkMessage note_off 55 0 100] 480 6 = inr tokens /\
    exists q, last tokens = Some (Some q) /\ 60 <= q.
Proof.
  destruct (unclosed_note_sounds_to_the_end
              [mkMessage note_on 60 64 100; mkMessage note_on 55 64 100;
               mkMessage note_off 55 0 100] 480 6 0 100 60 (mkMessage note_on 60 64 100))
    as (ts & tokens & _ & Hrun & _ & Hlast).
  - repeat constructor; simpl; lia.
  - lia.
  - reflexivity.
  - reflexivity.
  - reflexivity.
  - intros [|[|[|j]]] t' m Hj Hlook; [lia | | | done];
      injection Hlook as _ <-; discriminate.
  - exists tokens. split; [exact Hrun | exact Hlast].
Defined.

(** * Further properties of the trimmer and the sentinel coding *)

(** X10: reading -1 as a rest and writing rests back as -1 returns every
    list of integers unchanged: decoding loses nothing. *)
Theorem decode_then_encode (lst : list Z) :
  map none_to_neg1 (replace_neg1_with_none lst) = lst.
Proof.
  unfold replace_neg1_with_none. induction lst as [|x lst IH]; [done |].
  cbn [map]. rewrite IH. f_equal. unfold neg1_to_none.
  by destruct (Z.eqb_spec x (-1)) as [->|_].
Qed.

Lemma encode_then_decode (tokens : list token) :
  Forall (fun x => x <> Some (-1)) tokens ->
  replace_neg1_with_none (map none_to_neg1 tokens) = tokens.
Proof.
  unfold replace_neg1_with_none. induction 1 as [|x l Hx _ IH]; [done |].
  cbn [map]. rewrite IH. f_equal. destruct x as [v|]; [| done].
  unfold neg1_to_none, none_to_neg1.
  by destruct (Z.eqb_spec v (-1)) as [->|_].
Qed.

Lemma trim_positive (a b : nat) (core : list token) (p q subdivision : Z) :
  0 < subdivision ->
  head core = Some (Some p) -> last core = Some (Some q) ->
  trim_and_convert_nones (replicate a None ++ core ++ replicate b None) subdivision
  = inr (map none_to_neg1
           (replicate (Z.to_nat (Z.of_nat a mod subdivision)) None ++ core ++
            replicate (Z.to_nat (Z.of_nat b mod subdivision)) None)).
Proof.
  intros Hsub Hp Hq.
  assert (Hcore : core <> []) by (destruct core; [done | discriminate]).
  rewrite (trim_rests_core_rests a b core p q) by done. floordiv_defined.
  pose proof (Z.div_mod (Z.of_nat a) subdivision ltac:(lia)) as Ha.
  pose proof (Z.mod_pos_bound (Z.of_nat a) subdivision Hsub) as Ha'.
  pose proof (Z.div_mod (Z.of_nat b) subdivision ltac:(lia)) as Hb.
  pose proof (Z.mod_pos_bound (Z.of_nat b) subdivision Hsub) as Hb'.
  pose proof (Z.div_pos (Z.of_nat a) subdivision ltac:(lia) Hsub) as Hqa.
  pose proof (Z.div_pos (Z.of_nat b) subdivision ltac:(lia) Hsub) as Hqb.
  pose proof (slice_rests_core_rests a b
                (Z.to_nat (Z.of_nat a / subdivision * subdivision))
                (Z.to_nat (Z.of_nat b / subdivision * subdivision)) core
                ltac:(nia) ltac:(nia) Hcore) as Hslice.
  cbv zeta in Hslice. rewrite !Z2Nat.id in Hslice by nia.
  rewrite Hslice.
  replace (a - Z.to_nat (Z.of_nat a / subdivision * subdivision))%nat
    with (Z.to_nat (Z.of_nat a mod subdivision)) by nia.
  replace (b - Z.to_nat (Z.of_nat b / subdivision * subdivision))%nat
    with (Z.to_nat (Z.of_nat b mod subdivision)) by nia.
  reflexivity.
Qed.

(** X11: at a positive subdivision, and with no pitch equal to -1,
    trimming is idempotent through the decoder: decoding the trimmed
    sequence and trimming it again returns the same trimmed sequence. *)
Theorem trim_is_idempotent (tokens : list token) (subdivision : Z) (out : list Z) :
  0 < subdivision -> Forall (fun x => x <> Some (-1)) tokens ->
  trim_and_convert_nones tokens subdivision = inr out ->
  trim_and_convert_nones (replace_neg1_with_none out) subdivision = inr out.
Proof.
  intros Hsub Hvalid Htrim.
  destruct (split_leading_rests tokens) as (a0 & l' & Heq & [-> | [p0 Hp0]]).
  { rewrite trim_all_rests in Htrim.
    - by injection Htrim as <-.
    - intros x Hx. rewrite Heq, app_nil_r in Hx. by apply elem_of_replicate in Hx as [-> _]. }
  destruct (rests_core_rests tokens) as (a & b & core & p & q & -> & Hp & Hq).
  { exists p0. rewrite Heq. apply elem_of_app. right.
    destruct l' as [|x l']; [done |]. injection Hp0 as ->. left. }
  rewrite (trim_positive a b core p q) in Htrim by done. injection Htrim as <-.
  rewrite encode_then_decode.
  2:{ apply Forall_app in Hvalid as [_ Hvalid]. apply Forall_app in Hvalid as [Hcore _].
      apply Forall_app. split; [by apply Forall_replicate |].
      apply Forall_app. split; [done | by apply Forall_replicate]. }
  rewrite (trim_positive _ _ core p q) by done.
  pose proof (Z.mod_pos_bound (Z.of_nat a) subdivision Hsub).
  pose proof (Z.mod_pos_bound (Z.of_nat b) subdivision Hsub).
  rewrite !Z2Nat.id by lia. by rewrite !Z.mod_mod by lia.
Qed.

Lemma trim_is_idempotent_witness :
  trim_and_convert_nones
    (replace_neg1_with_none [-1; 60; -1; 62; -1; -1; -1]) 4
  = inr [-1; 60; -1; 62; -1; -1; -1].
Proof.
  apply (trim_is_idempotent
           [None; None; None; None; None; Some 60; None; Some 62; None; None; None] 4).
  - lia.
  - repeat constructor; discriminate.
  - reflexivity.
Defined.

(** X12: at subdivision 1, the default, every leading and trailing rest
    is removed: the result is the sequence from its first to its last
    pitch, and so begins and ends with a pitch. *)
Theorem trim_by_one_strips_all_rests (tokens : list token) :
  (exists p, Some p ∈ tokens) ->
  exists (a b : nat) (core : list token) (p q : Z),
    tokens = replicate a None ++ core ++ replicate b None /\
    head core = Some (Some p) /\ last core = Some (Some q) /\
    trim_and_convert_nones tokens 1 = inr (map none_to_neg1 core) /\
    head (map none_to_neg1 core) = Some p /\
    last (map none_to_neg1 core) = Some q.
Proof.
  intros Hpitch.
  destruct (rests_core_rests tokens Hpitch) as (a & b & core & p & q & -> & Hp & Hq).
  exists a, b, core, p, q. split; [done |]. split; [done |]. split; [done |].
  split.
  - rewrite (trim_positive a b core p q) by (done || lia).
    rewrite !Z.mod_1_r. simpl. by rewrite app_nil_r.
  - split.
    + destruct core as [|x core]; [done |]. simpl in *. by injection Hp as ->.
    + apply last_Some in Hq as [core' ->]. rewrite map_app. apply last_snoc.
Qed.

Lemma trim_by_one_strips_all_rests_witness :
  exists (core : list token) (p q : Z),
    trim_and_convert_nones [None; None; Some 60; None; Some 62; None] 1
    = inr (map none_to_neg1 core) /\
    head (map none_to_neg1 core) = Some p /\
    last (map none_to_neg1 core) = Some q.
Proof.
  destruct (trim_by_one_strips_all_rests [None; None; Some 60; None; Some 62; None])
    as (a & b & core & p & q & _ & _ & _ & Htrim & Hhead & Hlast).
  - exists 60. apply list_elem_of_In. simpl. auto.
  - exists core, p, q. auto.
Defined.

(** * [extract_notes_from_track] *)

Lemma onsets_cons (ev : Z * Message) (events : list (Z * Message)) :
  onsets (ev :: events)
  = match effect_of (snd ev) with
    | Starts p => (p, fst ev) :: onsets events
    | _ => onsets events
    end.
Proof. unfold onsets. cbn [omap list_omap]. by destruct (effect_of (snd ev)). Qed.

Lemma notes_loop_onsets (msgs : list Message) :
  forall (notes : list (Z * Z)) (c : Z) (current_note : option (Z * Z)),
    notes_loop msgs notes c current_note
    = notes ++ inter_onset (option_list current_note ++ onsets (timeline_from c msgs)).
Proof.
  induction msgs as [|msg rest IH]; intros notes c current_note.
  - cbn [notes_loop timeline_from]. unfold onsets. cbn [omap list_omap].
    rewrite app_nil_r. destruct current_note as [[p s]|]; simpl; by rewrite app_nil_r.
  - cbn [notes_loop timeline_from]. rewrite onsets_cons. unfold effect_of. cbn [snd fst].
    destruct (type msg); [| apply IH | apply IH].
    destruct (0 <? velocity msg); [| apply IH].
    rewrite IH. destruct current_note as [[p s]|]; [| done].
    cbn [option_list app inter_onset]. by rewrite <- app_assoc.
Qed.

Lemma extract_notes_onsets (msgs : list Message) :
  extract_notes_from_track msgs = inter_onset (onsets (timeline msgs)).
Proof. unfold extract_notes_from_track. by rewrite notes_loop_onsets. Qed.

(** X13: the notes reported for a track are its onsets, each but the
    last, paired with the time to the next onset.  The note_off messages
    and the note_on messages of velocity 0 only add their delta time to
    the clock: a reported duration is an inter-onset time, not the time
    the note sounded. *)
Theorem notes_are_inter_onset_times (msgs : list Message) :
  extract_notes_from_track msgs = inter_onset (onsets (timeline msgs)).
Proof. apply extract_notes_onsets. Qed.

Lemma inter_onset_length (os : list (Z * Z)) :
  length (inter_onset os) = pred (length os).
Proof.
  induction os as [|[p t] os IH]; [done |].
  destruct os as [|[p' t'] os]; [done |].
  cbn [inter_onset length] in *. by rewrite IH.
Qed.

Lemma inter_onset_pitches (os : list (Z * Z)) :
  map fst (inter_onset os) = take (pred (length os)) (map fst os).
Proof.
  induction os as [|[p t] os IH]; [done |].
  destruct os as [|[p' t'] os]; [done |].
  cbn [inter_onset length map fst pred take] in *. by rewrite IH.
Qed.

(** X14: the last onset of a track is never reported: the result has one
    note less than the track has onsets, with the pitches of all onsets
    but the last, in order; a track with a single onset, or none, gives
    no note at all. *)
Theorem last_note_is_not_reported (msgs : list Message) :
  let os := onsets (timeline msgs) in
  length (extract_notes_from_track msgs) = pred (length os) /\
  map fst (extract_notes_from_track msgs) = take (pred (length os)) (map fst os) /\
  ((length os <= 1)%nat -> extract_notes_from_track msgs = []).
Proof.
  intros os. rewrite extract_notes_onsets. fold os.
  split; [apply inter_onset_length |]. split; [apply inter_onset_pitches |].
  intros Hfew. apply length_zero_iff_nil. rewrite inter_onset_length.
  destruct (length os) as [|[|n]]; [done | done | lia].
Qed.

Lemma last_note_is_not_reported_witness :
  extract_notes_from_track
    [mkMessage note_off 62 0 5; mkMessage note_on 60 64 10; mkMessage note_off 60 0 40]
  = [].
Proof.
  apply (last_note_is_not_reported
           [mkMessage note_off 62 0 5; mkMessage note_on 60 64 10;
            mkMessage note_off 60 0 40]).
  vm_compute. lia.
Defined.

Lemma onsets_sorted (events : list (Z * Message)) :
  StronglySorted by_time events ->
  StronglySorted (fun a b : Z * Z => snd a <= snd b) (onsets events).
Proof.
  induction 1 as [|ev events _ IH Hall]; [constructor |].
  rewrite onsets_cons. destruct (effect_of (snd ev)) as [p| |]; [| done | done].
  constructor; [done |]. apply Forall_forall. intros [q t] Hin.
  unfold onsets in Hin. apply list_elem_of_omap in Hin as (ev' & Hin & Hev').
  rewrite Forall_forall in Hall. apply Hall in Hin. unfold by_time in Hin.
  destruct (effect_of (snd ev')); [| done | done]. injection Hev' as _ <-. done.
Qed.

Lemma inter_onset_nonneg (os : list (Z * Z)) :
  StronglySorted (fun a b : Z * Z => snd a <= snd b) os ->
  Forall (fun n : Z * Z => 0 <= snd n) (inter_onset os).
Proof.
  induction 1 as [|[p t] os Hsorted IH Hall]; [constructor |].
  destruct os as [|[p' t'] os]; [constructor |].
  cbn [inter_onset]. constructor; [| exact IH].
  apply Forall_cons in Hall as [Hle _]. simpl in *. lia.
Qed.

Lemma inter_onset_total (os : list (Z * Z)) (first_onset last_onset : Z * Z) :
  head os = Some first_onset -> last os = Some last_onset ->
  foldr Z.add 0 (map snd (inter_onset os)) = snd last_onset - snd first_onset.
Proof.
  revert first_onset. induction os as [|[p t] os IH]; intros first_onset Hhead Hlast;
    [done |].
  injection Hhead as <-. destruct os as [|[p' t'] os].
  - injection Hlast as <-. simpl. lia.
  - rewrite last_cons_cons in Hlast. specialize (IH (p', t') eq_refl Hlast).
    change (inter_onset ((p, t) :: (p', t') :: os))
      with ((p, t' - t) :: inter_onset ((p', t') :: os)).
    cbn [map foldr snd] in *. rewrite IH. lia.
Qed.

(** X15: on a track with non-negative delta times no reported duration
    is negative, and the durations add up to the time from the first
    onset to the last. *)
Theorem note_durations (msgs : list Message) :
  Forall (fun msg => 0 <= time msg) msgs ->
  Forall (fun n : Z * Z => 0 <= snd n) (extract_notes_from_track msgs) /\
  forall first_onset last_onset : Z * Z,
    head (onsets (timeline msgs)) = Some first_onset ->
    last (onsets (timeline msgs)) = Some last_onset ->
    foldr Z.add 0 (map snd (extract_notes_from_track msgs))
    = snd last_onset - snd first_onset.
Proof.
  intros Hmsgs. rewrite extract_notes_onsets. split.
  - apply inter_onset_nonneg, onsets_sorted. by apply timeline_from_sorted.
  - apply inter_onset_total.
Qed.

Lemma note_durations_witness :
  Forall (fun n : Z * Z => 0 <= snd n)
    (extract_notes_from_track
       [mkMessage note_on 60 64 10; mkMessage note_off 60 0 40;
        mkMessage note_on 62 64 20; mkMessage note_on 64 64 30]) /\
  foldr Z.add 0
    (map snd (extract_notes_from_track
       [mkMessage note_on 60 64 10; mkMessage note_off 60 0 40;
        mkMessage note_on 62 64 20; mkMessage note_on 64 64 30]))
  = snd (64, 100) - snd (60, 10).
Proof.
  destruct (note_durations
              [mkMessage note_on 60 64 10; mkMessage note_off 60 0 40;
               mkMessage note_on 62 64 20; mkMessage note_on 64 64 30])
    as [Hnonneg Hsum].
  - repeat constructor; simpl; lia.
  - split; [exact Hnonneg |]. apply Hsum; reflexivity.
Defined.

(** * [convert_to_buckets] *)

Lemma range_upto_is_range (n : Z) : Py.range 0 n 1 = inr (range_upto n).
Proof.
  unfold Py.range, Py.range_length, range_upto. simpl.
  destruct (Z.ltb_spec 0 n) as [Hn|Hn].
  - rewrite Z.div_1_r. replace (Z.to_nat (1 + (n - 1 - 0))) with (Z.to_nat n) by lia.
    unfold Py.ret. f_equal. apply List.map_ext. intros k. lia.
  - by replace (Z.to_nat n) with 0%nat by lia.
Qed.

Lemma buckets_of_one_note (interval first second : Z) (n : nat) :
  0 < interval ->
  flat_map
    (fun i => if (i * interval <? second) && (second <=? (i + 1) * interval)
              then [(first, i + 1)] else [])
    (map Z.of_nat (seq 0 n))
  = if (0 <? second) && (second <=? Z.of_nat n * interval)
    then [(first, (second + interval - 1) / interval)] else [].
Proof.
  intros Hint. induction n as [|n IH].
  - cbn [seq map flat_map]. replace (Z.of_nat 0 * interval) with 0 by lia.
    destruct (Z.ltb_spec 0 second), (Z.leb_spec second 0); cbn [andb];
      first [done | exfalso; lia].
  - rewrite seq_S, map_app, flat_map_app, IH. cbn [map flat_map plus].
    rewrite app_nil_r.
    destruct (Z.ltb_spec 0 second) as [Hpos|Hneg];
      destruct (Z.leb_spec second (Z.of_nat n * interval)) as [Hin|Hout];
      destruct (Z.ltb_spec (Z.of_nat n * interval) second) as [Hlt|Hge];
      destruct (Z.leb_spec second ((Z.of_nat n + 1) * interval)) as [Hle|Hgt];
      destruct (Z.leb_spec second (Z.of_nat (S n) * interval)) as [Hle'|Hgt'];
      cbn [andb app]; try done; try (exfalso; nia).
    do 2 f_equal. apply Z.div_unique with (r := second + interval - 1
                                                 - interval * (Z.of_nat n + 1)); nia.
Qed.

Lemma flat_map_length_le {A B} (f : A -> list B) (l : list A) :
  (forall x, (length (f x) <= 1)%nat) -> (length (flat_map f l) <= length l)%nat.
Proof.
  intros Hf. induction l as [|x l IH]; [done |].
  cbn [flat_map]. rewrite length_app. specialize (Hf x). simpl. lia.
Qed.

(** X16: with a positive interval every note is put in at most one
    bucket, in the order of the notes: the duration divided by the
    interval, rounded up.  A note whose duration is zero or negative, or
    longer than [num_buckets] intervals, is left out.  So the result is
    no longer than the input and every bucket number lies between 1 and
    [num_buckets]. *)
Theorem buckets_round_durations_up (all_guitar_notes : list (Z * Z))
    (interval num_buckets : Z) :
  0 < interval ->
  convert_to_buckets all_guitar_notes interval num_buckets
  = flat_map (bucket_of interval num_buckets) all_guitar_notes /\
  (length (convert_to_buckets all_guitar_notes interval num_buckets)
   <= length all_guitar_notes)%nat /\
  Forall (fun b : Z * Z => 1 <= snd b <= num_buckets)
         (convert_to_buckets all_guitar_notes interval num_buckets).
Proof.
  intros Hint.
  assert (Heq : convert_to_buckets all_guitar_notes interval num_buckets
                = flat_map (bucket_of interval num_buckets) all_guitar_notes).
  { unfold convert_to_buckets, range_upto. apply flat_map_ext. intros [first second].
    rewrite buckets_of_one_note by done. unfold bucket_of. cbn [fst snd].
    destruct (Z.ltb_spec 0 second);
      destruct (Z.leb_spec second (Z.of_nat (Z.to_nat num_buckets) * interval));
      destruct (Z.leb_spec second (num_buckets * interval));
      cbn [andb]; try done; exfalso; nia. }
  rewrite Heq. split; [done |]. split.
  - apply flat_map_length_le. intros [first second]. unfold bucket_of.
    destruct (_ && _); simpl; lia.
  - apply Forall_forall. intros [p k] Hin.
    apply list_elem_of_In, in_flat_map in Hin as ([first second] & _ & Hin).
    unfold bucket_of in Hin. cbn [fst snd] in Hin.
    destruct (Z.ltb_spec 0 second); [| done].
    destruct (Z.leb_spec second (num_buckets * interval)); [| done].
    cbn [andb] in Hin. destruct Hin as [[= <- <-] | []]. cbn [snd].
    pose proof (Z.div_mod (second + interval - 1) interval ltac:(lia)).
    pose proof (Z.mod_pos_bound (second + interval - 1) interval Hint). nia.
Qed.

Lemma buckets_round_durations_up_witness :
  convert_to_buckets [(60, 45); (62, 0); (64, 30); (65, 241); (67, 240)] 30 8
  = flat_map (bucket_of 30 8) [(60, 45); (62, 0); (64, 30); (65, 241); (67, 240)] /\
  flat_map (bucket_of 30 8) [(60, 45); (62, 0); (64, 30); (65, 241); (67, 240)]
  = [(60, 2); (64, 1); (67, 8)].
Proof.
  split; [| reflexivity].
  apply (buckets_round_durations_up
           [(60, 45); (62, 0); (64, 30); (65, 241); (67, 240)] 30 8). lia.
Defined.

Lemma no_bucket_of_one_note (interval first second : Z) (candidates : list Z) :
  interval <= 0 ->
  flat_map
    (fun i => if (i * interval <? second) && (second <=? (i + 1) * interval)
              then [(first, i + 1)] else [])
    candidates
  = [].
Proof.
  intros Hint. induction candidates as [|i later IH]; [done |].
  cbn [flat_map]. rewrite IH, app_nil_r.
  destruct (Z.ltb_spec (i * interval) second);
    destruct (Z.leb_spec second ((i + 1) * interval)); cbn [andb]; try done.
  exfalso. assert ((i + 1) * interval = i * interval + interval) by ring. lia.
Qed.

(** X17: when the interval is zero or negative, or there is no bucket,
    no note fits a bucket and the result is empty. *)
Theorem no_bucket_without_positive_interval (all_guitar_notes : list (Z * Z))
    (interval num_buckets : Z) :
  interval <= 0 \/ num_buckets <= 0 ->
  convert_to_buckets all_guitar_notes interval num_buckets = [].
Proof.
  intros Hbad. unfold convert_to_buckets.
  induction all_guitar_notes as [|[first second] notes IH]; [done |].
  cbn [flat_map]. rewrite IH, app_nil_r.
  destruct Hbad as [Hint | Hnb].
  - by apply no_bucket_of_one_note.
  - unfold range_upto. by replace (Z.to_nat num_buckets) with 0%nat by lia.
Qed.

Lemma no_bucket_without_positive_interval_witness :
  convert_to_buckets [(60, 45); (62, 0); (64, -30)] (-30) 8 = [].
Proof. apply no_bucket_without_positive_interval. left. lia. Defined.

(** * [find_key] and [process_midi_file] *)

Section TrackSelectionProperties.

Variable re_compile : string -> option (string -> bool).
Variable key_signature : Message -> option string.

Lemma find_key_messages (msgs : list Message) (current_key : string) :
  foldl (fun current_key message =>
           match key_signature message with
           | Some key => key
           | None => current_key
           end) current_key msgs
  = default current_key (last (omap key_signature msgs)).
Proof.
  revert current_key. induction msgs as [|msg msgs IH]; intros current_key; [done |].
  cbn [foldl]. rewrite IH. cbn [omap list_omap].
  destruct (key_signature msg) as [key|]; [| done].
  fold (omap key_signature msgs). rewrite last_cons.
  by destruct (last (omap key_signature msgs)).
Qed.

Lemma find_key_tracks (ts : list MidiTrack) (current_key : string) :
  foldl (fun current_key t =>
           foldl (fun current_key message =>
                    match key_signature message with
                    | Some key => key
                    | None => current_key
                    end) current_key (messages t))
        current_key ts
  = default current_key (last (omap key_signature (concat (map messages ts)))).
Proof.
  revert current_key. induction ts as [|t ts IH]; intros current_key; [done |].
  cbn [foldl map concat]. rewrite IH, find_key_messages, omap_app, last_app.
  by destruct (last (omap key_signature (concat (map messages ts)))).
Qed.

(** X18: [find_key] returns the key of the last key signature message of
    the file, reading the tracks one after the other and not by time,
    and ["unknown"] when the file has no key signature message. *)
Theorem find_key_is_last_key_signature (midi_file : MidiFile) :
  find_key key_signature midi_file
  = default "unknown"%string
      (last (omap key_signature (concat (map messages (tracks midi_file))))).
Proof. unfold find_key. apply find_key_tracks. Qed.

Lemma extend_with_tokens_concat (guitar_tracks : list MidiTrack)
    (grids : list (list token)) (ticks_per_beat subdivision : Z) :
  Forall2 (fun t grid =>
             extract_tokens_with_granularity (messages t) ticks_per_beat subdivision
             = inr grid) guitar_tracks grids ->
  forall all_guitar_notes,
    extend_with_tokens guitar_tracks ticks_per_beat subdivision all_guitar_notes
    = inr (all_guitar_notes ++ concat grids).
Proof.
  induction 1 as [|t grid ts grids Hgrid _ IH]; intros acc.
  - simpl. by rewrite app_nil_r.
  - cbn [extend_with_tokens concat]. rewrite Hgrid. cbn [Py.bind].
    by rewrite IH, app_assoc.
Qed.

Lemma extend_with_tokens_fails (guitar_tracks : list MidiTrack)
    (ticks_per_beat subdivision : Z) (e : Py.error) :
  guitar_tracks <> [] ->
  (forall msgs, extract_tokens_with_granularity msgs ticks_per_beat subdivision = inl e) ->
  forall all_guitar_notes,
    extend_with_tokens guitar_tracks ticks_per_beat subdivision all_guitar_notes = inl e.
Proof.
  intros Hne Hfail acc. destruct guitar_tracks as [|t ts]; [done |].
  cbn [extend_with_tokens]. by rewrite Hfail.
Qed.

(** X19: an invalid pattern makes [process_midi_file] fail with
    [re.error] before any track is read.  With a valid pattern it fails
    with [UnboundLocalError] exactly when no track name matches,
    whatever the subdivision: the key is then never assigned, and no
    empty result is returned. *)
Theorem no_matching_track_is_unbound_key (midi_file : MidiFile)
    (track_name : string) (subdivision : Z) :
  (re_compile track_name = None ->
   process_midi_file re_compile key_signature midi_file track_name subdivision
   = inl ReError) /\
  (process_midi_file re_compile key_signature midi_file track_name subdivision
   = inl UnboundLocalError
   <-> exists pattern,
         re_compile track_name = Some pattern /\
         Forall (fun t => pattern (name t) = false) (tracks midi_file)).
Proof.
  unfold process_midi_file, find_guitar_track. split.
  { by intros ->. }
  destruct (re_compile track_name) as [pattern|]; [| split; [done | by intros (? & ? & _)]].
  split.
  - intros Hfail. exists pattern. split; [done |].
    destruct (filter _ (tracks midi_file)) as [|t ts] eqn:Hfilter.
    + apply Forall_forall. intros t Ht.
      destruct (pattern (name t)) eqn:Hmatch; [| done].
      assert (Hin : t ∈ filter (fun t => pattern (name t) = true) (tracks midi_file))
        by (by apply list_elem_of_filter).
      rewrite Hfilter in Hin. by apply elem_of_nil in Hin.
    + by destruct (extend_with_tokens _ _ _ _).
  - intros (pattern' & [= <-] & Hnone). rewrite filter_none; [done |].
    eapply Forall_impl; [exact Hnone |]. intros t Ht. simpl in *. congruence.
Qed.

(** X20: when some track name matches and the resolution is usable, the
    result holds the grids of the matching tracks, one after the other
    in the order of the file, with the key of [find_key] and the ticks
    per beat of the file. *)
Theorem matching_tracks_are_concatenated (midi_file : MidiFile)
    (track_name : string) (subdivision : Z) (guitar_tracks : list MidiTrack) :
  subdivision <> 0 -> midi_ticks_per_beat midi_file / subdivision <> 0 ->
  find_guitar_track re_compile midi_file track_name = inr guitar_tracks ->
  guitar_tracks <> [] ->
  exists grids : list (list token),
    Forall2 (fun t grid =>
               extract_tokens_with_granularity (messages t)
                 (midi_ticks_per_beat midi_file) subdivision = inr grid)
            guitar_tracks grids /\
    process_midi_file re_compile key_signature midi_file track_name subdivision
    = inr (concat grids, find_key key_signature midi_file,
           midi_ticks_per_beat midi_file).
Proof.
  intros Hs Hstep Hfound Hmatch.
  assert (Hgrids : forall ts : list MidiTrack,
             exists grids : list (list token),
               Forall2 (fun t grid =>
                          extract_tokens_with_granularity (messages t)
                            (midi_ticks_per_beat midi_file) subdivision = inr grid)
                       ts grids).
  { induction ts as [|t ts [grids IH]]; [exists []; constructor |].
    destruct (extract_total (messages t) _ _ Hs Hstep) as [grid Hgrid].
    exists (grid :: grids). by constructor. }
  destruct (Hgrids guitar_tracks) as [grids Hall].
  exists grids. split; [exact Hall |]. unfold process_midi_file. rewrite Hfound.
  rewrite (extend_with_tokens_concat _ grids _ _ Hall).
  by destruct guitar_tracks.
Qed.

(** X21: when some track name matches, an unusable resolution makes
    [process_midi_file] fail with the error of the quantizer:
    [ZeroDivisionError] at subdivision 0, [ValueError] when the
    subdivision exceeds the ticks per beat. *)
Theorem matching_track_at_unusable_resolution (midi_file : MidiFile)
    (track_name : string) (subdivision : Z) (guitar_tracks : list MidiTrack) :
  find_guitar_track re_compile midi_file track_name = inr guitar_tracks ->
  guitar_tracks <> [] ->
  (subdivision = 0 ->
   process_midi_file re_compile key_signature midi_file track_name subdivision
   = inl (Raised Py.ZeroDivisionError)) /\
  (0 <= midi_ticks_per_beat midi_file < subdivision ->
   process_midi_file re_compile key_signature midi_file track_name subdivision
   = inl (Raised Py.ValueError)).
Proof.
  intros Hfound Hmatch. unfold process_midi_file. rewrite Hfound. split.
  - intros ->. rewrite (extend_with_tokens_fails _ _ _ Py.ZeroDivisionError);
      [by destruct guitar_tracks | done | done].
  - intros Htpb. rewrite (extend_with_tokens_fails _ _ _ Py.ValueError);
      [by destruct guitar_tracks | done |].
    intros msgs. unfold extract_tokens_with_granularity. floordiv_defined.
    rewrite Z.div_small by lia. reflexivity.
Qed.

End TrackSelectionProperties.

Lemma matching_tracks_are_concatenated_witness :
  let solo := mkTrack "Solo" [mkMessage note_on 60 64 0; mkMessage note_off 60 0 80] in
  let bass := mkTrack "Bass" [mkMessage note_on 40 64 0; mkMessage note_off 40 0 80] in
  let midi_file := mkMidiFile [solo; bass; solo] 480 in
  process_midi_file solo_only (fun _ => None) midi_file "solo" 6
  = inr ([Some 60; None; Some 60; None], "unknown"%string, 480).
Proof.
  intros solo bass midi_file.
  destruct (matching_tracks_are_concatenated
              solo_only (fun _ => None) midi_file "solo" 6 [solo; solo])
    as (grids & Hgrids & ->).
  - lia.
  - vm_compute. discriminate.
  - reflexivity.
  - discriminate.
  - vm_compute in Hgrids.
    apply Forall2_cons_inv_l in Hgrids as (g1 & grids1 & Hg1 & Hgrids & ->).
    apply Forall2_cons_inv_l in Hgrids as (g2 & grids2 & Hg2 & Hgrids & ->).
    apply Forall2_nil_inv_l in Hgrids as ->.
    injection Hg1 as <-. injection Hg2 as <-. reflexivity.
Defined.

Lemma matching_track_at_unusable_resolution_witness :
  process_midi_file solo_only (fun _ => None)
    (mkMidiFile [mkTrack "Solo" [mkMessage note_on 60 64 0]] 480) "solo" 0
  = inl (Raised Py.ZeroDivisionError).
Proof.
  apply (matching_track_at_unusable_resolution
           solo_only (fun _ => None)
           (mkMidiFile [mkTrack "Solo" [mkMessage note_on 60 64 0]] 480) "solo" 0
           [mkTrack "Solo" [mkMessage note_on 60 64 0]]).
  - reflexivity.
  - discriminate.
  - reflexivity.
Defined.

(** * Locality and the negative step *)

(** X22: on tracks with non-negative delta times and a positive step
    size, the token of a sample step depends only on the events at or
    before that step: two tracks whose events up to tick
    [k * step_size] are the same have the same token at index [k]. *)
Theorem token_depends_on_earlier_events_only (msgs1 msgs2 : list Message)
    (ticks_per_beat subdivision : Z) (k : nat) (tokens1 tokens2 : list token)
    (tok1 tok2 : token) :
  Forall (fun msg => 0 <= time msg) msgs1 ->
  Forall (fun msg => 0 <= time msg) msgs2 ->
  subdivision <> 0 -> 0 < ticks_per_beat / subdivision ->
  filter (fun ev => fst ev <= Z.of_nat k * (ticks_per_beat / subdivision)) (timeline msgs1)
  = filter (fun ev => fst ev <= Z.of_nat k * (ticks_per_beat / subdivision)) (timeline msgs2) ->
  extract_tokens_with_granularity msgs1 ticks_per_beat subdivision = inr tokens1 ->
  extract_tokens_with_granularity msgs2 ticks_per_beat subdivision = inr tokens2 ->
  tokens1 !! k = Some tok1 -> tokens2 !! k = Some tok2 ->
  tok1 = tok2.
Proof.
  intros Hmsgs1 Hmsgs2 Hs Hstep Hsame Hrun1 Hrun2 Hk1 Hk2.
  set (step_size := ticks_per_beat / subdivision) in *.
  assert (Hone : forall msgs tokens tok,
             Forall (fun msg => 0 <= time msg) msgs ->
             extract_tokens_with_granularity msgs ticks_per_beat subdivision = inr tokens ->
             tokens !! k = Some tok ->
             current_token (active_at (timeline msgs) (Z.of_nat k * step_size)) = inr tok).
  { intros msgs tokens tok Hmsgs Hrun Hk.
    pose proof (final_time_nonneg msgs Hmsgs) as Hfinal.
    destruct (range_positive_step _ _ Hfinal Hstep) as (ts & Hrange & Hmult & _).
    unfold extract_tokens_with_granularity in Hrun. revert Hrun. floordiv_defined.
    fold step_size. rewrite Hrange. cbn [Py.bind]. intros Hrun.
    destruct (sample_loop_total ts (timeline msgs) ∅) as (tokens' & Hrun' & Hlen).
    rewrite Hrun in Hrun'. injection Hrun' as <-.
    destruct (lookup_lt_is_Some_2 ts k) as [t Ht].
    { rewrite <- Hlen. by eapply lookup_lt_Some. }
    destruct (sample_loop_sorted ts (timeline msgs) ∅ tokens) with (k := k) (t := t)
      as (tok' & Hlook & Htok); try done.
    - by apply timeline_from_sorted.
    - by eapply range_sorted.
    - rewrite Hk in Hlook. injection Hlook as <-.
      rewrite (Hmult _ _ Ht) in Htok. exact Htok. }
  pose proof (Hone msgs1 tokens1 tok1 Hmsgs1 Hrun1 Hk1) as H1.
  pose proof (Hone msgs2 tokens2 tok2 Hmsgs2 Hrun2 Hk2) as H2.
  unfold active_at in H1, H2. rewrite Hsame in H1. congruence.
Qed.

Lemma token_depends_on_earlier_events_only_witness :
  Some 60 = Some 60.
Proof.
  apply (token_depends_on_earlier_events_only
           [mkMessage note_on 60 64 0; mkMessage note_off 60 0 200]
           [mkMessage note_on 60 64 0; mkMessage note_on 72 64 100;
            mkMessage note_off 60 0 300]
           480 6 1
           [Some 60; Some 60; Some 60; None]
           [Some 60; Some 60; Some 72; Some 72; Some 72; Some 72]
           (Some 60) (Some 60)).
  - repeat constructor; simpl; lia.
  - repeat constructor; simpl; lia.
  - lia.
  - reflexivity.
  - reflexivity.
  - reflexivity.
  - reflexivity.
  - reflexivity.
  - reflexivity.
Defined.

(** X23: with a negative subdivision and positive ticks per beat the
    step size is negative and the quantizer does not fail: on a track
    with non-negative delta times it returns at most one token, and none
    at all once the final time reaches the size of the step. *)
Theorem negative_step_gives_at_most_one_token (msgs : list Message)
    (ticks_per_beat subdivision : Z) :
  Forall (fun msg => 0 <= time msg) msgs ->
  subdivision < 0 < ticks_per_beat ->
  let step_size := ticks_per_beat / subdivision in
  exists tokens,
    extract_tokens_with_granularity msgs ticks_per_beat subdivision = inr tokens /\
    step_size < 0 /\
    (length tokens <= 1)%nat /\
    (tokens = [] <-> - step_size <= final_time_of (timeline msgs)).
Proof.
  intros Hmsgs [Hsub Htpb] step_size.
  assert (Hstep : step_size < 0).
  { pose proof (Z.div_mod ticks_per_beat subdivision ltac:(lia)).
    pose proof (Z.mod_neg_bound ticks_per_beat subdivision Hsub).
    fold step_size in H. nia. }
  pose proof (final_time_nonneg msgs Hmsgs) as Hfinal.
  unfold extract_tokens_with_granularity. floordiv_defined. fold step_size.
  unfold Py.range, Py.range_length.
  destruct (Z.eqb_spec step_size 0) as [|_]; [lia |].
  destruct (Z.ltb_spec 0 step_size); [lia |]. cbn [Py.bind Py.ret].
  match goal with |- context [sample_loop ?ts ?ev ?A] =>
    destruct (sample_loop_total ts ev A) as (tokens & -> & Hlen) end.
  rewrite length_map, length_seq in Hlen.
  exists tokens. split; [done |]. split; [done |].
  destruct (Z.ltb_spec (final_time_of (timeline msgs) + step_size) 0) as [Hlt|Hge].
  - rewrite Z.div_small in Hlen by lia. simpl in Hlen.
    split; [lia |]. split; [intros ->; simpl in Hlen; lia | lia].
  - simpl in Hlen. split; [lia |].
    split; [lia | intros _; by destruct tokens].
Qed.

Lemma negative_step_gives_at_most_one_token_witness :
  exists tokens,
    extract_tokens_with_granularity
      [mkMessage note_on 60 64 0; mkMessage note_off 60 0 20] 480 (-6) = inr tokens /\
    (length tokens <= 1)%nat.
Proof.
  destruct (negative_step_gives_at_most_one_token
              [mkMessage note_on 60 64 0; mkMessage note_off 60 0 20] 480 (-6))
    as (tokens & Hrun & _ & Hlen & _).
  - repeat constructor; simpl; lia.
  - lia.
  - exists tokens. split; [exact Hrun | exact Hlen].
Defined.

Lemma no_matching_track_is_unbound_key_witness :
  process_midi_file solo_only (fun _ => None)
    (mkMidiFile [mkTrack "Bass" [mkMessage note_on 40 64 0]] 480) "solo" 0
  = inl UnboundLocalError /\
  process_midi_file solo_only (fun _ => None) (mkMidiFile [] 480) "(" 6
  = inl ReError.
Proof.
  split.
  - apply (no_matching_track_is_unbound_key
             solo_only (fun _ => None)
             (mkMidiFile [mkTrack "Bass" [mkMessage note_on 40 64 0]] 480) "solo" 0).
    eexists. split; [reflexivity |]. repeat constructor.
  - apply (no_matching_track_is_unbound_key
             solo_only (fun _ => None) (mkMidiFile [] 480) "(" 6).
    reflexivity.
Defined.

(** * Pitches the synthesizer cannot write *)

(** X24: at a non-zero subdivision, a grid that holds a pitch outside
    0..127 is not synthesized: building the message of that pitch
    raises [ValueError] and no track is returned. *)
Theorem pitch_out_of_range_is_rejected (tokens : list token) (p : Z)
    (ticks_per_beat subdivision : Z) :
  subdivision <> 0 -> Some p ∈ tokens -> ~ (0 <= p <= 127) ->
  generate_midi_from_tokens tokens ticks_per_beat subdivision = inl Py.ValueError.
Proof.
  intros Hs Hin Hbad. rewrite generate_spec.
  destruct (Z.eqb_spec subdivision 0) as [|_]; [done |].
  destruct (forallb token_ok tokens) eqn:Hok; [| done].
  apply forallb_token_ok in Hok. rewrite Forall_forall in Hok.
  destruct Hbad. by apply (Hok _ Hin).
Qed.

Lemma pitch_out_of_range_is_rejected_witness :
  generate_midi_from_tokens [Some 60; Some 128] 480 6 = inl Py.ValueError.
Proof.
  apply (pitch_out_of_range_is_rejected [Some 60; Some 128] 128 480 6).
  - lia.
  - apply list_elem_of_In. simpl. auto.
  - lia.
Defined.
